(** * script.js: testimonial slider, viewport observers and booking form

  A shallow embedding of the interaction layer in [src/script.js].

  - [JS]: the few ECMAScript values and builtins the script relies on
    (numbers, strict equality, [Number(...)], template-literal rendering).
  - [Slider]: the closure state of [slider()] ([curSlide], the slide panels
    and the dots) with [goToSlide], [activateDot], [nextSlide], [prevSlide],
    [init] and the dot container's click handler.
  - [Viewport]: the two [IntersectionObserver] callbacks [revealSection] and
    [loadImg], the DOM calls they make, and the deliveries of the notifier.
  - [Booking]: the modal, the submit handler of [#bookingForm] and the
    analytics listener of the show-modal controls.
  - [Tabs]: the click listener of the tabbed component.

  Handlers run to completion one at a time (a single-threaded event loop), so
  each handler is a function from the page state before it to the state
  after it; a thrown [TypeError] keeps the mutations made before the throw. *)

From Stdlib Require Import ZArith QArith Lia Ascii String.
From stdpp Require Import base numbers list strings pretty gmap.

Set Warnings "-clear-no-such-hyp".

Local Open Scope string_scope.
Local Open Scope Z_scope.

(** ** ECMAScript values *)

Module JS.

(** The numbers that reach the slider: [NaN] and the integer-valued doubles,
    the latter carried by [Z] ([-0] and [0] are not told apart, as [===],
    [+], [-], [*] and template literals do not tell them apart either). *)
Inductive number := NaN | Num (z : Z).

#[global] Instance number_eq_dec : EqDecision number.
Proof. solve_decision. Defined.

Definition MAX_SAFE_INTEGER : Z := 9007199254740991.

(** The safe integers, [-(2^53 - 1) .. 2^53 - 1]: every one of them is a
    double, the sum, difference or product of two doubles is computed
    without rounding when it is one of them, and a template literal prints
    one of them as its decimal digits.  Beyond them a double operation
    rounds and (from [10^21]) a template literal prints an exponent, which
    [add], [sub], [mul] and [ToString] below do not follow: where an index
    can leave the slide range, a statement keeps its numbers safe by
    hypothesis. *)
Definition safe (z : Z) : Prop := - MAX_SAFE_INTEGER ≤ z ≤ MAX_SAFE_INTEGER.

(** [NaN], or a safe integer. *)
Definition safe_number (v : number) : Prop :=
  match v with NaN => True | Num z => safe z end.

(** [a === b] on numbers: [NaN] equals nothing, itself included. *)
Definition strict_eq (a b : number) : bool :=
  match a, b with
  | Num x, Num y => bool_decide (x = y)
  | _, _ => false
  end.

(** [a + b], [a - b] and [a * b]: the exact result, which is the double the
    code computes as long as it is [safe]. *)
Definition add (a b : number) : number :=
  match a, b with Num x, Num y => Num (x + y) | _, _ => NaN end.

Definition sub (a b : number) : number :=
  match a, b with Num x, Num y => Num (x - y) | _, _ => NaN end.

Definition mul (a b : number) : number :=
  match a, b with Num x, Num y => Num (x * y) | _, _ => NaN end.

(** Rendering inside a template literal, [`${v}`]: ["NaN"], or the decimal
    digits of a [safe] integer with [-] in front of a negative one. *)
Definition ToString (v : number) : string :=
  match v with
  | NaN => "NaN"
  | Num z => pretty z
  end.

Definition code (a : ascii) : N := N_of_ascii a.

(** TAB, LF, VT, FF, CR and SPACE: the one-byte members of the white space
    and line terminators that [Number] strips. *)
Definition is_space (a : ascii) : bool :=
  let c := code a in
  ((9 <=? c) && (c <=? 13))%N || (c =? 32)%N.

Definition is_digit (a : ascii) : bool :=
  let c := code a in ((48 <=? c) && (c <=? 57))%N.

(** A character of 7-bit ASCII. *)
Definition is_ascii (a : ascii) : bool := (code a <? 128)%N.

Fixpoint drop_space (l : list ascii) : list ascii :=
  match l with
  | a :: l' => if is_space a then drop_space l' else l
  | [] => []
  end.

Definition trim (l : list ascii) : list ascii :=
  rev (drop_space (rev (drop_space l))).

(** Value of a run of decimal digits, most significant first; [None] when
    some character is not a digit. *)
Fixpoint digits_value (acc : Z) (l : list ascii) : option Z :=
  match l with
  | [] => Some acc
  | a :: l' =>
      if is_digit a
      then digits_value (10 * acc + (Z.of_N (code a) - 48)) l'
      else None
  end.

(** The decimal digits at the head of [l], and the text after them. *)
Fixpoint span_digits (l : list ascii) : list ascii * list ascii :=
  match l with
  | a :: l' =>
      if is_digit a
      then let '(ds, r) := span_digits l' in (a :: ds, r)
      else ([], l)
  | [] => ([], [])
  end.

(** An optional sign: whether it is [-], and the text after it. *)
Definition sign (l : list ascii) : bool * list ascii :=
  match l with
  | c :: r =>
      if bool_decide (c = "-"%char) then (true, r)
      else if bool_decide (c = "+"%char) then (false, r)
      else (false, l)
  | [] => (false, [])
  end.

(** The end of a decimal literal, an optional ExponentPart: [Some 0] for no
    text; [Some k] for the letter e or E, an optional sign and a run of
    digits that denote [k]; [None] for any other text. *)
Definition exponent (l : list ascii) : option Z :=
  match l with
  | [] => Some 0
  | c :: r =>
      if bool_decide (c = "e"%char) || bool_decide (c = "E"%char) then
        let '(negative, body) := sign r in
        match body with
        | [] => None
        | _ :: _ =>
            z ← digits_value 0 body; Some (if negative then - z else z)
        end
      else None
  end.

(** StrUnsignedDecimalLiteral, [Infinity] apart: digits with an optional
    fraction and exponent ([12], [12.], [12.5], [.5], [12e3], ...), at least
    one digit before the exponent.  [Some (n, m, k)] when [l] is such a
    literal: its value is [m * 10^k], [m] written with [n] digits; [None]
    when it is not. *)
Definition decimal (l : list ascii) : option (nat * Z * Z) :=
  let '(ip, r) := span_digits l in
  let '(fp, r') :=
    match r with
    | c :: t => if bool_decide (c = "."%char) then span_digits t else ([], r)
    | [] => ([], [])
    end in
  match (ip ++ fp)%list with
  | [] => None
  | ds =>
      m ← digits_value 0 ds; e ← exponent r';
      Some (length ds, m, e - Z.of_nat (length fp))
  end.

(** The value [m * 10^k] of a literal whose [m] is written with [n] digits,
    when it is an integer and [k] is 15 at most; [None] for a fraction, and
    for [k] above 15 unless [m] is [0] (a value of [10^16] at least). *)
Definition integer_value (n : nat) (m k : Z) : option Z :=
  if bool_decide (m = 0) then Some 0
  else if bool_decide (0 ≤ k) then
    if bool_decide (k ≤ 15) then Some (m * 10 ^ k) else None
  else if bool_decide (- k ≤ Z.of_nat n) then
    if bool_decide (m mod 10 ^ (- k) = 0) then Some (m / 10 ^ (- k)) else None
  else None.

(** The value of a digit of a hexadecimal, octal or binary literal. *)
Definition digit_in (radix : Z) (a : ascii) : option Z :=
  let c := Z.of_N (code a) in
  let d :=
    if is_digit a then c - 48
    else if bool_decide (97 ≤ c ≤ 102) then c - 87
    else if bool_decide (65 ≤ c ≤ 70) then c - 55
    else radix in
  if bool_decide (d < radix) then Some d else None.

Fixpoint radix_value (radix acc : Z) (l : list ascii) : option Z :=
  match l with
  | [] => Some acc
  | a :: l' => d ← digit_in radix a; radix_value radix (radix * acc + d) l'
  end.

Definition radix_of (a : ascii) : option Z :=
  if bool_decide (a = "x"%char) || bool_decide (a = "X"%char) then Some 16
  else if bool_decide (a = "o"%char) || bool_decide (a = "O"%char) then Some 8
  else if bool_decide (a = "b"%char) || bool_decide (a = "B"%char) then Some 2
  else None.

(** NonDecimalIntegerLiteral: [0x], [0o] or [0b] (either case) and at least
    one digit of that radix; it takes no sign. *)
Definition non_decimal (l : list ascii) : option Z :=
  match l with
  | z :: p :: d :: ds =>
      if bool_decide (z = "0"%char)
      then radix ← radix_of p; radix_value radix 0 (d :: ds)
      else None
  | _ => None
  end.

Definition within_safe (z : Z) : option Z :=
  if bool_decide (z ≤ MAX_SAFE_INTEGER) then Some z else None.

(** [Number(s)] for a string [s] (StringToNumber).  The result is [Some v]
    when [Number(s)] is [v]:
    - the empty or all-blank string is [0];
    - text that is a numeric literal (blanks around it stripped) is its
      value, when that is a safe integer: [7], [-7], [007], [7.0], [70e-1],
      [0x7];
    - text that is no numeric literal is [NaN]: [abc], [2nd], [1e], [0x],
      [-0x7], [1 2].
    It is [None], undecided, for a literal whose value is not a safe
    integer (a fraction, [Infinity], a larger integer) and for text with a
    character outside ASCII: such a value is not a [number] of this
    model. *)
Definition StringToNumber (s : string) : option number :=
  let l := list_ascii_of_string s in
  if forallb is_ascii l then
    match trim l with
    | [] => Some (Num 0)
    | t =>
        match non_decimal t with
        | Some z => Num <$> within_safe z
        | None =>
            let '(negative, body) := sign t in
            if bool_decide (body = list_ascii_of_string "Infinity") then None
            else
              match decimal body with
              | None => Some NaN
              | Some (n, m, k) =>
                  z ← integer_value n m k ≫= within_safe;
                  Some (Num (if negative then - z else z))
              end
        end
    end
  else None.

(** [Number(x)] where [x] is a property that may be missing:
    [Number(undefined)] is [NaN]. *)
Definition Number (x : option string) : option number :=
  match x with
  | None => Some NaN
  | Some s => StringToNumber s
  end.

End JS.

(** ** The testimonial slider *)

Module Slider.

(** [style.transform] of a slide panel: untouched, or [translateX(pct%)]. *)
Inductive transform := NoTransform | TranslateX (pct : Z).

#[global] Instance transform_eq_dec : EqDecision transform.
Proof. solve_decision. Defined.

(** [s.style.transform = `translateX(${v}%)`].  A declaration that does not
    parse is dropped by the style object, and [translateX(NaN%)] does not
    parse: the assignment then leaves the transform as it was. *)
Definition assign_translateX (v : JS.number) (old : transform) : transform :=
  match v with
  | JS.Num z => TranslateX z
  | JS.NaN => old
  end.

(** A [.dots__dot] element: its [data-slide] attribute (if any) and whether
    it carries the [dots__dot--active] class. *)
Record dot := Dot { data_slide : option string; active : bool }.

#[global] Instance dot_eq_dec : EqDecision dot.
Proof. solve_decision. Defined.

(** The variables closed over by [slider()]: [curSlide], the [.slide]
    panels in document order, and the [.dots__dot] elements of the document
    in document order.  The dots are taken to lie inside the dot container,
    where [createDots] puts them: the container's listener hears a click on
    any of them, and a dot written at the container's end comes last. *)
Record state := State {
  curSlide : JS.number;
  slides : list transform;
  dots : list dot
}.

(** A handler either returns or throws a [TypeError]; both keep the state
    reached so far. *)
Inductive completion := Normal (st : state) | TypeError (st : state).

Definition final (c : completion) : state :=
  match c with Normal st | TypeError st => st end.

Definition returns (c : completion) : bool :=
  match c with Normal _ => true | TypeError _ => false end.

(** [f(); g()]: [g] runs only when [f] returned. *)
Definition andThen (c : completion) (k : state → completion) : completion :=
  match c with
  | Normal st => k st
  | TypeError st => TypeError st
  end.

(** [const maxSlide = slides.length]. *)
Definition maxSlide (st : state) : Z := Z.of_nat (length (slides st)).

Definition set_curSlide (v : JS.number) (st : state) : state :=
  State v (slides st) (dots st).

Definition set_slides (l : list transform) (st : state) : state :=
  State (curSlide st) l (dots st).

Definition set_dots (l : list dot) (st : state) : state :=
  State (curSlide st) (slides st) l.

(** The button [createDots] writes for slide [i]. *)
Definition new_dot (i : nat) : dot :=
  Dot (Some (JS.ToString (JS.Num (Z.of_nat i)))) false.

(** [createDots]: one button per slide, appended to the dot container
    ([beforeend]), hence after the dots it holds already. *)
Definition createDots (st : state) : state :=
  set_dots (dots st ++ imap (λ i _, new_dot i) (slides st)) st.

Definition deactivate (d : dot) : dot := Dot (data_slide d) false.
Definition activate (d : dot) : dot := Dot (data_slide d) true.

(** [activateDot(slide)]: strip the active class from every dot, then add it
    to the first dot matching [.dots__dot[data-slide="${slide}"]];
    [querySelector] yields [null] when there is none and [.classList] on it
    throws. *)
Definition activateDot (slide : JS.number) (st : state) : completion :=
  let cleared := deactivate <$> dots st in
  match list_find (λ d, data_slide d = Some (JS.ToString slide)) cleared with
  | Some (k, d) => Normal (set_dots (<[k := activate d]> cleared) st)
  | None => TypeError (set_dots cleared st)
  end.

(** [goToSlide(slide)]: slide [i] gets [translateX(${100 * (i - slide)}%)]. *)
Definition goToSlide (slide : JS.number) (st : state) : state :=
  set_slides
    (imap (λ i s,
       assign_translateX
         (JS.mul (JS.Num 100) (JS.sub (JS.Num (Z.of_nat i)) slide)) s)
       (slides st))
    st.

(** [goToSlide(slide); activateDot(slide);], the pair of calls that ends
    every handler: the specification's [goTo]. *)
Definition goTo (slide : JS.number) (st : state) : completion :=
  activateDot slide (goToSlide slide st).

Definition nextSlide (st : state) : completion :=
  let cur :=
    if JS.strict_eq (curSlide st) (JS.Num (maxSlide st - 1))
    then JS.Num 0
    else JS.add (curSlide st) (JS.Num 1) in
  goTo cur (set_curSlide cur st).

Definition prevSlide (st : state) : completion :=
  let cur :=
    if JS.strict_eq (curSlide st) (JS.Num 0)
    then JS.Num (maxSlide st - 1)
    else JS.sub (curSlide st) (JS.Num 1) in
  goTo cur (set_curSlide cur st).

(** [init]: [goToSlide(0); createDots(); activateDot(0)]. *)
Definition init (st : state) : completion :=
  activateDot (JS.Num 0) (createDots (goToSlide (JS.Num 0) st)).

(** [slider()] up to [init()]: [curSlide = 0] over the [.slide] panels and
    the [.dots__dot] elements the dot container holds in the markup (none
    in a container that starts empty). *)
Definition slider (panels : list transform) (found : list dot) : completion :=
  init (State (JS.Num 0) panels found).

(** The [keydown] listener: two independent tests on [e.key]. *)
Definition keydown (key : string) (st : state) : completion :=
  andThen
    (if bool_decide (key = "ArrowLeft") then prevSlide st else Normal st)
    (λ st', if bool_decide (key = "ArrowRight") then nextSlide st'
            else Normal st').

(** What was clicked inside the dot container: the [k]-th [.dots__dot]
    element of the document, or an element without that class. *)
Inductive target := DotElement (k : nat) | OtherElement.

(** The click listener's body once [Number(e.target.dataset.slide)] is
    known to be [v]. *)
Definition selectByIndicator (v : JS.number) (st : state) : completion :=
  goTo v (set_curSlide v st).

(** The click listener of the dot container.  [None] only when the clicked
    dot's [data-slide] is text that [JS.Number] leaves undecided. *)
Definition dotClick (t : target) (st : state) : option completion :=
  match t with
  | OtherElement => Some (Normal st)
  | DotElement k =>
      match dots st !! k with
      | None => Some (Normal st)
      | Some d =>
          match JS.Number (data_slide d) with
          | Some v => Some (selectByIndicator v st)
          | None => None
          end
      end
  end.

(** An arrow activation. *)
Inductive move := Next | Previous.

Definition step (m : move) (st : state) : completion :=
  match m with Next => nextSlide st | Previous => prevSlide st end.

(** A sequence of arrow activations, followed as long as none throws: it
    ends at the first [TypeError] (the page would go on and dispatch the
    next event to the state the throw left). *)
Fixpoint run (ms : list move) (st : state) : completion :=
  match ms with
  | [] => Normal st
  | m :: ms' => andThen (step m st) (run ms')
  end.

#[global] Instance move_eq_dec : EqDecision move.
Proof. solve_decision. Defined.

(** How many calls of kind [m] a sequence holds. *)
Definition calls (m : move) (ms : list move) : nat :=
  length (filter (λ x, x = m) ms).

(** Net signed displacement of a sequence: the number of next calls minus
    the number of previous calls. *)
Definition displacement (ms : list move) : Z :=
  Z.of_nat (calls Next ms) - Z.of_nat (calls Previous ms).

Definition delta (m : move) : Z :=
  match m with Next => 1 | Previous => -1 end.

(** A page of three slides whose dot container already holds one dot in the
    markup, with [data-slide="7"] or with no [data-slide] at all. *)
Definition three_panels : list transform := [NoTransform; NoTransform; NoTransform].

(** Three slides with the second one showing. *)
Definition second_of_three : state :=
  State (JS.Num 1)
        [TranslateX (-100); TranslateX 0; TranslateX 100]
        [Dot (Some "0") false; Dot (Some "1") true; Dot (Some "2") false].

(** The index arithmetic as the specification words it. *)
Definition next_index_spec (N c : Z) : Z := (c + 1) mod N.
Definition previous_index_spec (N c : Z) : Z := (c - 1 + N) mod N.

(** The dots are the ones [createDots] wrote, one per slide in slide order:
    the state of a page whose dot container started empty. *)
Definition dots_created (st : state) : Prop :=
  data_slide <$> dots st
  = (λ i, Some (JS.ToString (JS.Num (Z.of_nat i)))) <$> seq 0 (length (slides st)).

(** [curSlide] is the index [c] of a slide. *)
Definition at_index (c : Z) (st : state) : Prop :=
  curSlide st = JS.Num c ∧ 0 ≤ c < maxSlide st.

(** The state in which slide [c] of [n] is shown: slide [p] at offset
    [100 * (p - c)] percent and, of the [n] dots [createDots] writes, the
    one for [c] active. *)
Definition shown (n : nat) (c : Z) : state :=
  State (JS.Num c)
        ((λ p, TranslateX (100 * (Z.of_nat p - c))) <$> seq 0 n)
        ((λ j, Dot (Some (JS.ToString (JS.Num (Z.of_nat j))))
                   (bool_decide (Z.of_nat j = c))) <$> seq 0 n).

(** [st'] has the slides and the dots of [st], up to offsets and active
    markers. *)
Definition same_frame (st st' : state) : Prop :=
  length (slides st') = length (slides st)
  ∧ data_slide <$> dots st' = data_slide <$> dots st.



End Slider.

(** ** Scroll reveal and lazy images *)

Module Viewport.

(** Element handles. *)
Definition elem := nat.

Inductive observer := sectionObserver | imgObserver.

#[global] Instance observer_eq_dec : EqDecision observer.
Proof. solve_decision. Defined.

(** The DOM and observer calls the script makes.  A listener's body is the
    list of calls it makes when its event fires. *)
#[warnings="-register-all"] Inductive op :=
| ClassAdd (e : elem) (c : string)
| ClassRemove (e : elem) (c : string)
| SrcFromDataset (e : elem)
| AddListener (e : elem) (type : string) (body : list op)
| Observe (o : observer) (e : elem)
| Unobserve (o : observer) (e : elem).

Record node := Node {
  classList : gset string;
  src : option string;
  dataset_src : option string;
  listeners : list (string * list op)
}.

(** The page: its nodes, the observation targets of the two observers, and
    the calls made so far (oldest first). *)
Record page := Page {
  dom : gmap elem node;
  section_targets : gset elem;
  img_targets : gset elem;
  log : list op
}.

Definition targets (o : observer) (p : page) : gset elem :=
  match o with
  | sectionObserver => section_targets p
  | imgObserver => img_targets p
  end.

Definition set_targets (o : observer) (s : gset elem) (p : page) : page :=
  match o with
  | sectionObserver => Page (dom p) s (img_targets p) (log p)
  | imgObserver => Page (dom p) (section_targets p) s (log p)
  end.

Definition on_node (e : elem) (f : node → node) (p : page) : page :=
  Page (alter f e (dom p)) (section_targets p) (img_targets p) (log p).

Definition record (c : op) (p : page) : page :=
  Page (dom p) (section_targets p) (img_targets p) (log p ++ [c]).

(** One call.  [e.src = e.dataset.src] writes the text ["undefined"] when
    the element has no [data-src]. *)
Definition exec (c : op) (p : page) : page :=
  record c
    match c with
    | ClassAdd e cl =>
        on_node e (λ n, Node ({[cl]} ∪ classList n) (src n) (dataset_src n)
                             (listeners n)) p
    | ClassRemove e cl =>
        on_node e (λ n, Node (classList n ∖ {[cl]}) (src n) (dataset_src n)
                             (listeners n)) p
    | SrcFromDataset e =>
        on_node e (λ n, Node (classList n)
                             (Some (default "undefined" (dataset_src n)))
                             (dataset_src n) (listeners n)) p
    | AddListener e type body =>
        on_node e (λ n, Node (classList n) (src n) (dataset_src n)
                             (listeners n ++ [(type, body)])) p
    | Observe o e => set_targets o (targets o p ∪ {[e]}) p
    | Unobserve o e => set_targets o (targets o p ∖ {[e]}) p
    end.

Definition exec_all (cs : list op) (p : page) : page :=
  foldl (λ q c, exec c q) p cs.

(** An [IntersectionObserverEntry], as far as the callbacks read it. *)
Record entry := Entry { target : elem; isIntersecting : bool }.

(** [revealSection(entries, observer)]: [const [entry] = entries] keeps the
    first entry; on an empty list [entry] is [undefined] and reading
    [entry.isIntersecting] throws (no result). *)
Definition revealSection (entries : list entry) (obs : observer)
  : option (list op) :=
  match entries with
  | [] => None
  | entry :: _ =>
      if negb (isIntersecting entry) then Some []
      else Some [ClassRemove (target entry) "section--hidden";
                 Unobserve obs (target entry)]
  end.

(** [loadImg(entries, observer)]. *)
Definition loadImg (entries : list entry) (obs : observer)
  : option (list op) :=
  match entries with
  | [] => None
  | entry :: _ =>
      if negb (isIntersecting entry) then Some []
      else Some [SrcFromDataset (target entry);
                 AddListener (target entry) "load"
                   [ClassRemove (target entry) "lazy-img"];
                 Unobserve obs (target entry)]
  end.

(** The options object given to [new IntersectionObserver]; [root: null]
    is the viewport for both observers. *)
Record options := Options { threshold : Q; rootMargin : option string }.

Definition callback (o : observer) : list entry → observer → option (list op) :=
  match o with
  | sectionObserver => revealSection
  | imgObserver => loadImg
  end.

Definition observer_options (o : observer) : options :=
  match o with
  | sectionObserver => Options (15 # 100) None
  | imgObserver => Options 0 (Some "200px")
  end.

(** An observer built without [rootMargin] has the margin ["0px"]. *)
Definition effective_rootMargin (opts : options) : string :=
  default "0px" (rootMargin opts).

(** [allSections.forEach(section => { sectionObserver.observe(section);
    section.classList.add('section--hidden') })]. *)
Definition hide_and_observe_sections (allSections : list elem) : list op :=
  allSections ≫= λ section,
    [Observe sectionObserver section; ClassAdd section "section--hidden"].

(** [imgTargets.forEach(img => imgObserver.observe(img))]. *)
Definition observe_images (imgTargets : list elem) : list op :=
  Observe imgObserver <$> imgTargets.

(** The page once the script has run over a document [d] that no call has
    touched yet. *)
Definition loaded (d : gmap elem node) (allSections imgTargets : list elem)
  : page :=
  exec_all (hide_and_observe_sections allSections ++ observe_images imgTargets)
           (Page d ∅ ∅ []).

(** What the event loop dispatches afterwards: one callback invocation of an
    observer with its batch of entries, or a [load] event on an element. *)
Inductive event :=
| Notification (o : observer) (batch : list entry)
| LoadEvent (e : elem).

(** The notifier invokes a callback with a non-empty batch, and only with
    entries of elements the observer still watches. *)
Definition deliverable (o : observer) (batch : list entry) (p : page) : Prop :=
  batch ≠ [] ∧ Forall (λ en, target en ∈ targets o p) batch.

Definition deliver (o : observer) (batch : list entry) (p : page)
  : option page :=
  cs ← callback o batch o; Some (exec_all cs p).

(** The listeners of [e] for [type], run in registration order. *)
Definition fire (e : elem) (type : string) (p : page) : page :=
  match dom p !! e with
  | None => p
  | Some n =>
      exec_all
        (filter (λ l, l.1 = type) (listeners n) ≫= snd)
        p
  end.

Definition enabled (ev : event) (p : page) : Prop :=
  match ev with
  | Notification o batch => deliverable o batch p
  | LoadEvent _ => True
  end.

Definition handle (ev : event) (p : page) : option page :=
  match ev with
  | Notification o batch => deliver o batch p
  | LoadEvent e => Some (fire e "load" p)
  end.

Inductive reach : page → list event → page → Prop :=
| reach_nil p : reach p [] p
| reach_cons p ev p' evs p'' :
    enabled ev p → handle ev p = Some p' → reach p' evs p'' →
    reach p (ev :: evs) p''.

(** The mutation of each instantiation, as a call on element [e]. *)
Definition is_mutation (o : observer) (e : elem) (c : op) : bool :=
  match o, c with
  | sectionObserver, ClassRemove e' cl =>
      bool_decide (e' = e ∧ cl = "section--hidden")
  | imgObserver, SrcFromDataset e' => bool_decide (e' = e)
  | _, _ => false
  end.

(** How many times the mutation of [o] was applied to [e]. *)
Definition mutations (o : observer) (e : elem) (l : list op) : nat :=
  length (filter (λ c, is_mutation o e c) l).

Definition has_class (cl : string) (e : elem) (p : page) : Prop :=
  ∃ n, dom p !! e = Some n ∧ cl ∈ classList n.

(** The document carries no listener yet. *)
Definition no_listeners (d : gmap elem node) : Prop :=
  map_Forall (λ _ n, listeners n = []) d.

(** Every listener on a node is the [load] listener [loadImg] registers on
    it, and a node has one only after its [src] was assigned. *)
Definition tame (p : page) : Prop :=
  ∀ e n, dom p !! e = Some n →
    Forall (λ l, l = ("load", [ClassRemove e "lazy-img"])) (listeners n)
    ∧ (listeners n ≠ [] → (1 ≤ mutations imgObserver e (log p))%nat).

(** No element was mutated twice, and a mutated element is watched no more. *)
Definition one_shot (p : page) : Prop :=
  ∀ o e, (mutations o e (log p) ≤ 1)%nat
         ∧ ((1 ≤ mutations o e (log p))%nat → e ∉ targets o p).

(** The calls of the two arming loops. *)
Definition arming (c : op) : Prop :=
  match c with
  | Observe _ _ | ClassAdd _ _ => True
  | _ => False
  end.

(** Modelled from the spec: the Viewport Visibility Notifier is the host's,
    not the script's; section 4.2 gives its rule, the threshold is the
    minimum fraction of the element's area that must be visible to count
    as intersecting.  [report o e ratio] is the entry it hands to [o]'s
    callback for an element [e] whose visible fraction is [ratio]. *)
Definition report (o : observer) (e : elem) (ratio : Q) : entry :=
  Entry e (Qle_bool (threshold (observer_options o)) ratio).

(** A document of two sections (0, 1) and two lazy images (2, 3). *)
Definition two_by_two : gmap elem node :=
  {[ 0%nat := Node ∅ None None [];
     1%nat := Node ∅ None None [];
     2%nat := Node {["lazy-img"]} (Some "img/digital-lazy.jpg")
                   (Some "img/digital.jpg") [];
     3%nat := Node {["lazy-img"]} (Some "img/grow-lazy.jpg")
                   (Some "img/grow.jpg") [] ]}.

Definition two_by_two_loaded : page :=
  loaded two_by_two [0%nat; 1%nat] [2%nat; 3%nat].

(** Image 2 came near the viewport and finished loading. *)
Definition image_2_shown : page :=
  fire 2%nat "load"
    (exec_all [SrcFromDataset 2%nat;
               AddListener 2%nat "load" [ClassRemove 2%nat "lazy-img"];
               Unobserve imgObserver 2%nat]
              two_by_two_loaded).

(** Both sections are 20% visible in one frame: one batch of two entries. *)
Definition both_sections_at_20 : option page :=
  deliver sectionObserver
    [report sectionObserver 0%nat (20 # 100); report sectionObserver 1%nat (20 # 100)]
    two_by_two_loaded.

(** Both sections, then both images, cross their threshold in one frame:
    each observer is handed one batch of two intersecting entries. *)
Definition both_sections_enter : option page :=
  deliver sectionObserver [Entry 0%nat true; Entry 1%nat true] two_by_two_loaded.

Definition both_images_enter : option page :=
  deliver imgObserver [Entry 2%nat true; Entry 3%nat true] two_by_two_loaded.

(** The elements each arming loop hands to its observer. *)
Definition armed (o : observer) (allSections imgTargets : list elem) : list elem :=
  match o with
  | sectionObserver => allSections
  | imgObserver => imgTargets
  end.

End Viewport.

(** ** Booking form *)

Module Booking.

Definition FORMSPREE_URL : string := "https://formspree.io/f/mqedlrnk".

(** How [await fetch(...)] ends: a response with its [ok] flag, or a
    rejection (the transport failed). *)
Inductive fetched := Response (ok : bool) | Rejected.

(** A text control of the form ([input], [textarea]) that is not disabled:
    its name, its current and its default value. *)
Record field := Field { name : string; value : string; defaultValue : string }.

(** What the handler does to the outside world, in order. *)
Inductive effect :=
| PreventDefault
| Post (url : string) (body : list (string * string))
| Gtag (command eventName : string) (params : list (string * string))
| Alert (message : string).

Record page := Page {
  form : list field;
  modal_hidden : bool;
  overlay_hidden : bool;
  effects : list effect
}.

Definition emit (e : effect) (p : page) : page :=
  Page (form p) (modal_hidden p) (overlay_hidden p) (effects p ++ [e]).

(** [new FormData(bookingForm)]: an entry for each control, in form order;
    a control without a name, or with an empty one, gives none. *)
Definition formData (p : page) : list (string * string) :=
  (λ f, (name f, value f)) <$> filter (λ f, name f ≠ "") (form p).

(** [bookingForm.reset()]. *)
Definition reset (p : page) : page :=
  Page ((λ f, Field (name f) (defaultValue f) (defaultValue f)) <$> form p)
       (modal_hidden p) (overlay_hidden p) (effects p).

(** [closeModal()]: add [hidden] to the modal and the overlay. *)
Definition closeModal (p : page) : page :=
  Page (form p) true true (effects p).

Definition success_message : string :=
  "Thanks! Your booking request has been sent. I’ll reply shortly.".
Definition failure_message : string :=
  "Sorry, something went wrong. Please try again.".
Definition network_message : string :=
  "Network error. Please try again.".

(** The submit listener; [gtag_is_function] is
    [typeof window.gtag === 'function'] and [r] is how the one [fetch]
    ended. *)
Definition submit (gtag_is_function : bool) (r : fetched) (p : page) : page :=
  let p1 := emit PreventDefault p in
  let p2 := emit (Post FORMSPREE_URL (formData p1)) p1 in
  match r with
  | Response true =>
      let p3 :=
        if gtag_is_function
        then emit (Gtag "event" "generate_lead"
                     [("event_category", "engagement");
                      ("event_label", "booking_form")]) p2
        else p2 in
      emit (Alert success_message) (closeModal (reset p3))
  | Response false => emit (Alert failure_message) p2
  | Rejected => emit (Alert network_message) p2
  end.

Definition is_post (e : effect) : bool :=
  match e with Post _ _ => true | _ => false end.


(** [openModal(e)]: [e.preventDefault()], then show the modal and the
    overlay. *)
Definition openModal (p : page) : page :=
  Page (form p) false false (effects p ++ [PreventDefault]).

(** A click on a [.btn--show-modal] control runs its two listeners in the
    order they were added: [openModal], then the analytics listener at the
    end of the script ([gtag('event', 'book_lesson_click')], no parameters). *)
Definition showModalClick (gtag_is_function : bool) (p : page) : page :=
  let p1 := openModal p in
  if gtag_is_function then emit (Gtag "event" "book_lesson_click" []) p1 else p1.

(** The document's [keydown] listener of the modal. *)
Definition modalKeydown (key : string) (p : page) : page :=
  if bool_decide (key = "Escape") && negb (modal_hidden p)
  then closeModal p else p.

(** The submit listener up to [await fetch(...)]: the request leaves with
    the values the form holds at that moment. *)
Definition submit_request (p : page) : page :=
  let p1 := emit PreventDefault p in
  emit (Post FORMSPREE_URL (formData p1)) p1.

(** The submit listener from the point its fetch ended as [r]. *)
Definition submit_settled (gtag_is_function : bool) (r : fetched) (p : page)
  : page :=
  match r with
  | Response true =>
      let p3 :=
        if gtag_is_function
        then emit (Gtag "event" "generate_lead"
                     [("event_category", "engagement");
                      ("event_label", "booking_form")]) p
        else p in
      emit (Alert success_message) (closeModal (reset p3))
  | Response false => emit (Alert failure_message) p
  | Rejected => emit (Alert network_message) p
  end.

(** What the event loop hands to the modal and the form: clicks on a
    show-modal control, on the close button and on the overlay, key presses,
    form submissions, and the ends of their fetches.  Other events may come
    between a submission and the end of its fetch. *)
Inductive ui_event :=
| ShowModalClick
| CloseClick
| OverlayClick
| KeyDown (key : string)
| Submit
| Settled (r : fetched).

Definition dispatch (gtag_is_function : bool) (ev : ui_event) (p : page) : page :=
  match ev with
  | ShowModalClick => showModalClick gtag_is_function p
  | CloseClick | OverlayClick => closeModal p
  | KeyDown key => modalKeydown key p
  | Submit => submit_request p
  | Settled r => submit_settled gtag_is_function r p
  end.

Definition dispatch_all (gtag_is_function : bool) (evs : list ui_event) (p : page)
  : page :=
  foldl (λ q ev, dispatch gtag_is_function ev q) p evs.

Definition count {A} (f : A → bool) (l : list A) : nat :=
  length (filter (λ x, f x) l).

Definition is_alert (e : effect) : bool :=
  match e with Alert _ => true | _ => false end.

(** [gtag('event', name, ...)]. *)
Definition is_gtag_event (name : string) (e : effect) : bool :=
  match e with
  | Gtag command eventName _ =>
      bool_decide (command = "event") && bool_decide (eventName = name)
  | _ => false
  end.

Definition is_show (ev : ui_event) : bool :=
  match ev with ShowModalClick => true | _ => false end.
Definition is_submit (ev : ui_event) : bool :=
  match ev with Submit => true | _ => false end.
Definition is_settled (ev : ui_event) : bool :=
  match ev with Settled _ => true | _ => false end.
Definition is_success (ev : ui_event) : bool :=
  match ev with Settled (Response true) => true | _ => false end.

(** A booking page with the modal open and two fields filled in. *)
Definition filled_in : page :=
  Page [Field "name" "Ada" ""; Field "email" "ada@example.org" ""]
       false false [].

End Booking.

(** ** The tabbed component *)

Module Tabs.

(** An element of the document, as far as the tab handler reads and writes
    it: its class list and its [data-tab] attribute. *)
Record element := Element { classes : gset string; data_tab : option string }.

Definition add_class (c : string) (el : element) : element :=
  Element ({[c]} ∪ classes el) (data_tab el).

Definition remove_class (c : string) (el : element) : element :=
  Element (classes el ∖ {[c]}) (data_tab el).

(** The handler returns or throws a [TypeError]; the document keeps what was
    done before the throw. *)
Inductive completion :=
| Normal (d : list element)
| TypeError (d : list element).

Definition final (r : completion) : list element :=
  match r with Normal d | TypeError d => d end.

Definition returns (r : completion) : bool :=
  match r with Normal _ => true | TypeError _ => false end.

(** [tabs.forEach(t => t.classList.remove('operations__tab--active'))], on
    one element of the document.  [tabs] and [tabsContent] are the
    [.operations__tab] and [.operations__content] elements found when the
    script starts; the script never writes these two classes, so they are
    the elements carrying them at any later click. *)
Definition drop_tab_active (el : element) : element :=
  if bool_decide ("operations__tab" ∈ classes el)
  then remove_class "operations__tab--active" el else el.

(** [tabsContent.forEach(c => c.classList.remove('operations__content--active'))],
    on one element ([tabsContent] are the [.operations__content] elements). *)
Definition drop_content_active (el : element) : element :=
  if bool_decide ("operations__content" ∈ classes el)
  then remove_class "operations__content--active" el else el.

(** The handler up to [clicked.classList.add('operations__tab--active')],
    [clicked] being element [k]. *)
Definition activate_tab (k : nat) (d : list element) : list element :=
  alter (add_class "operations__tab--active") k
        (drop_content_active <$> (drop_tab_active <$> d)).

(** The class the content selector asks for,
    [`operations__content--${clicked.dataset.tab}`]. *)
Definition content_class (tab : element) : string :=
  "operations__content--" +:+ default "undefined" (data_tab tab).

(** Letters, digits, [-] and [_]: characters that continue a CSS
    identifier as they stand. *)
Definition ident_char (a : ascii) : bool :=
  let c := N_of_ascii a in
  (((48 <=? c) && (c <=? 57)) || ((65 <=? c) && (c <=? 90))
   || ((97 <=? c) && (c <=? 122)) || (c =? 45) || (c =? 95))%N.

Definition ident_tail (s : string) : bool :=
  forallb ident_char (list_ascii_of_string s).

(** The click listener of the tab container.  [clicked] is
    [e.target.closest('.operations__tab')]: the position of that element in
    the document, if there is one.  When [data-tab] is made of identifier
    characters the selector [.operations__content--...] is one class
    selector and [querySelector] yields the first element of the document
    carrying that class (class names compared as written, as in a document
    with a doctype); for any other [data-tab] the outcome is left undecided,
    [None]. *)
Definition tabClick (clicked : option nat) (d : list element)
  : option completion :=
  match clicked with
  | None => Some (Normal d)
  | Some k =>
      match d !! k with
      | None => Some (Normal d)
      | Some tab =>
          if bool_decide ("operations__tab" ∈ classes tab) then
            let d3 := activate_tab k d in
            if ident_tail (default "undefined" (data_tab tab)) then
              match list_find (λ el, content_class tab ∈ classes el) d3 with
              | Some (m, _) =>
                  Some (Normal
                          (alter (add_class "operations__content--active") m d3))
              | None => Some (TypeError d3)
              end
            else None
          else Some (Normal d)
      end
  end.

(** What a click on tab [k] makes of element [j], [m] being the position of
    the content element the selector found, if any. *)
Definition after_click (k : nat) (m : option nat) (j : nat) (el : element)
  : element :=
  (if bool_decide (m = Some j) then add_class "operations__content--active"
   else id)
    ((if bool_decide (j = k) then add_class "operations__tab--active" else id)
       (drop_content_active (drop_tab_active el))).

(** Three tabs and their three panels, the first ones active. *)
Definition three_tabs : list element :=
  [Element {["operations__tab"; "operations__tab--1"; "operations__tab--active"]}
           (Some "1");
   Element {["operations__tab"; "operations__tab--2"]} (Some "2");
   Element {["operations__tab"; "operations__tab--3"]} (Some "3");
   Element {["operations__content"; "operations__content--1";
             "operations__content--active"]} None;
   Element {["operations__content"; "operations__content--2"]} None;
   Element {["operations__content"; "operations__content--3"]} None].

(** The same with the second tab and panel active. *)
Definition three_tabs_second : list element :=
  [Element {["operations__tab"; "operations__tab--1"]} (Some "1");
   Element {["operations__tab"; "operations__tab--2"; "operations__tab--active"]}
           (Some "2");
   Element {["operations__tab"; "operations__tab--3"]} (Some "3");
   Element {["operations__content"; "operations__content--1"]} None;
   Element {["operations__content"; "operations__content--2";
             "operations__content--active"]} None;
   Element {["operations__content"; "operations__content--3"]} None].

(** Three tabs, the panel of the third one missing. *)
Definition tabs_missing_panel : list element :=
  [Element {["operations__tab"; "operations__tab--1"; "operations__tab--active"]}
           (Some "1");
   Element {["operations__tab"; "operations__tab--2"]} (Some "2");
   Element {["operations__tab"; "operations__tab--3"]} (Some "3");
   Element {["operations__content"; "operations__content--1";
             "operations__content--active"]} None;
   Element {["operations__content"; "operations__content--2"]} None].

End Tabs.

(** * Properties of the slider *)

Section SliderFacts.
Import Slider.

Implicit Types (st : state) (c k : Z) (i j p : nat).



(** The dots [createDots] writes for [n] slides. *)
Lemma created_cleared st :
  dots_created st →
  deactivate <$> dots st = new_dot <$> seq 0 (length (slides st)).
Proof.
  unfold dots_created. intros H.
  change (deactivate <$> dots st) with ((λ d, Dot (data_slide d) false) <$> dots st).
  rewrite (list_fmap_compose data_slide (λ o, Dot o false)), H.
  by rewrite <- list_fmap_compose.
Qed.

Lemma find_new_dot n i :
  (i < n)%nat →
  list_find (λ d, data_slide d = Some (JS.ToString (JS.Num (Z.of_nat i))))
            (new_dot <$> seq 0 n)
  = Some (i, new_dot i).
Proof.
  intros Hi. apply list_find_Some. split_and!.
  - by rewrite list_lookup_fmap, lookup_seq_lt.
  - done.
  - intros j y Hj Hlt. rewrite list_lookup_fmap, lookup_seq_lt in Hj by lia.
    simplify_eq/=. intros [= H%(inj pretty)]. lia.
Qed.

Lemma dots_created_length st :
  dots_created st → length (dots st) = length (slides st).
Proof.
  intros H. apply (f_equal length) in H.
  by rewrite !length_fmap, length_seq in H.
Qed.

Lemma activateDot_created st i :
  dots_created st → (i < length (slides st))%nat →
  ∃ st', activateDot (JS.Num (Z.of_nat i)) st = Normal st'
    ∧ curSlide st' = curSlide st ∧ slides st' = slides st
    ∧ dots_created st'
    ∧ ∀ j d, dots st' !! j = Some d → (active d = true ↔ j = i).
Proof.
  intros Hc Hi. unfold activateDot.
  rewrite (created_cleared _ Hc), (find_new_dot _ _ Hi).
  eexists. split; [done|]. simpl. split_and!; try done.
  - unfold dots_created. simpl. rewrite list_fmap_insert. simpl.
    rewrite <- list_fmap_compose. apply list_insert_id.
    by rewrite list_lookup_fmap, lookup_seq_lt.
  - intros j d. destruct (decide (j = i)) as [->|Hne].
    + rewrite list_lookup_insert_eq by (by rewrite length_fmap, length_seq).
      intros [= <-]. done.
    + rewrite list_lookup_insert_ne by done. rewrite list_lookup_fmap.
      intros [k [Hk ->]]%fmap_Some. apply lookup_seq in Hk as [-> _].
      simpl. split; [done|lia].
Qed.

Lemma goToSlide_slides st c p t :
  slides (goToSlide (JS.Num c) st) !! p = Some t →
  t = TranslateX (100 * (Z.of_nat p - c)).
Proof.
  unfold goToSlide. simpl. rewrite list_lookup_imap.
  by intros [t0 [_ ->]]%fmap_Some.
Qed.

Lemma goToSlide_frame st v :
  curSlide (goToSlide v st) = curSlide st
  ∧ dots (goToSlide v st) = dots st
  ∧ length (slides (goToSlide v st)) = length (slides st).
Proof. unfold goToSlide. simpl. by rewrite length_imap. Qed.

Lemma goToSlide_created st v : dots_created st → dots_created (goToSlide v st).
Proof.
  unfold dots_created. destruct (goToSlide_frame st v) as (_ & -> & ->). done.
Qed.

(** [goTo] at a slide index of a page with the created dots. *)
Lemma goTo_created st i :
  dots_created st → (i < length (slides st))%nat →
  ∃ st', goTo (JS.Num (Z.of_nat i)) st = Normal st'
    ∧ curSlide st' = curSlide st
    ∧ length (slides st') = length (slides st)
    ∧ dots_created st'
    ∧ (∀ p t, slides st' !! p = Some t
              → t = TranslateX (100 * (Z.of_nat p - Z.of_nat i)))
    ∧ (∀ j d, dots st' !! j = Some d → (active d = true ↔ j = i)).
Proof.
  intros Hc Hi. unfold goTo.
  destruct (goToSlide_frame st (JS.Num (Z.of_nat i))) as (Hcur & Hd & Hlen).
  destruct (activateDot_created (goToSlide (JS.Num (Z.of_nat i)) st) i)
    as (st' & Hrun & Hcur' & Hsl & Hc' & Hact).
  { by apply goToSlide_created. }
  { by rewrite Hlen. }
  exists st'. split_and!; try done.
  - by rewrite Hsl.
  - intros p t. rewrite Hsl. apply goToSlide_slides.
Qed.

Lemma displacement_cons m ms : displacement (m :: ms) = delta m + displacement ms.
Proof.
  unfold displacement, calls. rewrite !filter_cons.
  destruct m; repeat case_decide; try done; simpl; lia.
Qed.

(** One arrow activation from a slide index: no throw, the created dots stay,
    and the index moves by one modulo the slide count. *)
Lemma step_at_index m st c :
  dots_created st → at_index c st →
  ∃ st', step m st = Normal st'
    ∧ dots_created st' ∧ length (slides st') = length (slides st)
    ∧ at_index ((c + delta m) mod maxSlide st) st'.
Proof.
  intros Hc [Hcur Hr]. unfold maxSlide in *.
  set (n := length (slides st)) in *.
  set (c' := (c + delta m) mod Z.of_nat n).
  assert (0 ≤ c' < Z.of_nat n) as Hc'r by (apply Z.mod_pos_bound; lia).
  assert (step m st = goTo (JS.Num c') (set_curSlide (JS.Num c') st)) as ->.
  { destruct m; simpl; unfold nextSlide, prevSlide, maxSlide; rewrite Hcur;
      fold n; simpl; subst c'; simpl; case_bool_decide as Hd.
    - replace ((c + 1) mod Z.of_nat n) with 0; [done|].
      rewrite Hd. replace (Z.of_nat n - 1 + 1) with (0 + 1 * Z.of_nat n) by lia.
      rewrite Z.mod_add by lia. by rewrite Z.mod_small by lia.
    - by rewrite (Z.mod_small (c + 1)) by lia.
    - replace ((c + -1) mod Z.of_nat n) with (Z.of_nat n - 1); [done|].
      rewrite Hd. replace (0 + -1) with (Z.of_nat n - 1 + (-1) * Z.of_nat n) by lia.
      rewrite Z.mod_add by lia. by rewrite Z.mod_small by lia.
    - rewrite (Z.mod_small (c + -1)) by lia.
      by replace (c + -1) with (c - 1) by lia. }
  destruct (goTo_created (set_curSlide (JS.Num c') st) (Z.to_nat c'))
    as (st' & Hrun & Hcur' & Hlen & Hcr & _).
  { done. }
  { simpl. fold n. lia. }
  rewrite Z2Nat.id in Hrun by lia.
  exists st'. split_and!; try done.
  split; [by rewrite Hcur'|]. unfold maxSlide. rewrite Hlen. simpl. by fold n.
Qed.

(** A sequence of arrow activations from a slide index. *)
Lemma run_at_index ms st c :
  dots_created st → at_index c st →
  ∃ st', run ms st = Normal st'
    ∧ dots_created st' ∧ length (slides st') = length (slides st)
    ∧ at_index ((c + displacement ms) mod maxSlide st) st'.
Proof.
  revert st c. induction ms as [|m ms IH]; intros st c Hc Hat.
  - exists st. split_and!; try done. change (displacement []) with 0.
    rewrite Z.add_0_r.
    destruct Hat as [? ?]. split; [|apply Z.mod_pos_bound; lia].
    by rewrite Z.mod_small by lia.
  - destruct (step_at_index m st c Hc Hat) as (st1 & Hstep & Hc1 & Hlen1 & Hat1).
    destruct (IH st1 _ Hc1 Hat1) as (st' & Hrun & Hc' & Hlen' & Hat').
    exists st'. cbn [run]. rewrite Hstep. cbn [andThen]. split_and!; try done.
    { by rewrite Hlen'. }
    assert (maxSlide st1 = maxSlide st) as HN by (unfold maxSlide; by rewrite Hlen1).
    rewrite HN in Hat'. rewrite displacement_cons.
    destruct Hat as [_ ?].
    rewrite Z.add_mod_idemp_l in Hat' by lia.
    by rewrite Z.add_assoc.
Qed.

(** [slider()] over at least one panel and an empty dot container. *)
Lemma slider_starts (panels : list transform) :
  panels ≠ [] →
  ∃ st0, slider panels [] = Normal st0
    ∧ dots_created st0 ∧ length (slides st0) = length panels
    ∧ at_index 0 st0.
Proof.
  intros Hne. unfold slider, init.
  set (st1 := createDots (goToSlide (JS.Num 0) (State (JS.Num 0) panels []))).
  assert (length (slides st1) = length panels) as Hlen.
  { subst st1. simpl. by rewrite length_imap. }
  assert (dots_created st1) as Hc.
  { unfold dots_created. subst st1. simpl.
    rewrite (imap_seq_0 _ new_dot), length_imap, <- list_fmap_compose. done. }
  destruct (activateDot_created st1 0 Hc) as (st0 & Hrun & Hcur & Hsl & Hc0 & _).
  { rewrite Hlen. destruct panels; [done|simpl; lia]. }
  exists st0. split_and!; try done.
  - by rewrite Hsl.
  - split; [by rewrite Hcur|]. unfold maxSlide. rewrite Hsl, Hlen.
    destruct panels; [done|simpl; lia].
Qed.

Lemma displacement_replicate_Next n :
  displacement (replicate n Next) = Z.of_nat n.
Proof.
  induction n as [|n IH]; [done|].
  cbn [replicate]. rewrite displacement_cons, IH. simpl. lia.
Qed.

(** C2. For a carousel of N >= 1 slides, after every call of any finite
    sequence of next()/previous() calls from the initialised state
    (curSlide = 0), curSlide is in [0, N-1] and equals the net signed
    displacement (next calls minus previous calls) modulo N; [take k ms] is
    the part of the sequence run so far. *)
Theorem arrows_track_displacement (panels : list transform) (ms : list move) (k : nat) :
  (1 ≤ length panels)%nat →
  ∃ st0 st',
    slider panels [] = Normal st0 ∧ curSlide st0 = JS.Num 0
    ∧ run (take k ms) st0 = Normal st'
    ∧ curSlide st' = JS.Num (displacement (take k ms) mod Z.of_nat (length panels))
    ∧ 0 ≤ displacement (take k ms) mod Z.of_nat (length panels)
        ≤ Z.of_nat (length panels) - 1.
Proof.
  intros HN.
  destruct (slider_starts panels) as (st0 & Hinit & Hc & Hlen & Hat).
  { intros ->. simpl in HN. lia. }
  destruct (run_at_index (take k ms) st0 0 Hc Hat) as (st' & Hrun & _ & _ & Hcur & _).
  unfold maxSlide in Hcur. rewrite Hlen, Z.add_0_l in Hcur.
  destruct Hat as [Hcur0 _].
  pose proof (Z.mod_pos_bound (displacement (take k ms)) (Z.of_nat (length panels))).
  exists st0, st'. split_and!; [done|done|done|done|lia|lia].
Qed.

Lemma arrows_track_displacement_witness :
  (1 ≤ length three_panels)%nat
  ∧ ∃ st0 st',
      slider three_panels [] = Normal st0 ∧ curSlide st0 = JS.Num 0
      ∧ run (take 4 [Previous; Previous; Next; Previous; Next]) st0 = Normal st'
      ∧ curSlide st'
        = JS.Num (displacement (take 4 [Previous; Previous; Next; Previous; Next])
                  mod Z.of_nat (length three_panels))
      ∧ 0 ≤ displacement (take 4 [Previous; Previous; Next; Previous; Next])
              mod Z.of_nat (length three_panels)
          ≤ Z.of_nat (length three_panels) - 1.
Proof.
  split; [simpl; lia|].
  apply (arrows_track_displacement three_panels
           [Previous; Previous; Next; Previous; Next] 4).
  simpl; lia.
Defined.

(** C3. For every slide count N >= 1 and every starting index in [0, N-1],
    calling next() exactly N times returns curSlide to the starting index. *)
Theorem next_full_cycle st c :
  dots_created st → at_index c st →
  ∃ st', run (replicate (length (slides st)) Next) st = Normal st'
    ∧ curSlide st' = JS.Num c.
Proof.
  intros Hc Hat.
  destruct (run_at_index (replicate (length (slides st)) Next) st c Hc Hat)
    as (st' & Hrun & _ & _ & Hcur & _).
  exists st'. split; [done|]. rewrite Hcur. f_equal.
  destruct Hat as [_ Hr]. unfold maxSlide in *.
  rewrite displacement_replicate_Next.
  replace (c + Z.of_nat (length (slides st)))
    with (c + 1 * Z.of_nat (length (slides st))) by lia.
  rewrite Z.mod_add by lia. apply Z.mod_small. lia.
Qed.

(** C4. For every index i with 0 <= i < N, after goTo(i) every slide at
    position p has horizontal offset 100 * (p - i) percent, so exactly one
    slide (position i) has offset 0, and exactly one dot, the one for index
    i, carries the active marker. *)
Theorem goTo_places_slides_and_dot st i :
  dots_created st → (i < length (slides st))%nat →
  ∃ st', goTo (JS.Num (Z.of_nat i)) st = Normal st'
    ∧ length (slides st') = length (slides st)
    ∧ length (dots st') = length (slides st)
    ∧ (∀ p t, slides st' !! p = Some t
              → t = TranslateX (100 * (Z.of_nat p - Z.of_nat i)))
    ∧ (∀ p, slides st' !! p = Some (TranslateX 0) ↔ p = i)
    ∧ (∀ j d, dots st' !! j = Some d → (active d = true ↔ j = i))
    ∧ (∃ d, dots st' !! i = Some d ∧ active d = true
            ∧ data_slide d = Some (JS.ToString (JS.Num (Z.of_nat i)))).
Proof.
  intros Hc Hi.
  destruct (goTo_created st i Hc Hi) as (st' & Hrun & _ & Hlen & Hc' & Hsl & Hact).
  pose proof (dots_created_length _ Hc') as Hdl.
  exists st'. split_and!; try done.
  - by rewrite Hdl.
  - intros p. split.
    + intros H. apply Hsl in H. injection H as H. lia.
    + intros ->. destruct (lookup_lt_is_Some_2 (slides st') i) as [t Ht]; [lia|].
      rewrite Ht. apply Hsl in Ht as ->. do 2 f_equal. lia.
  - destruct (lookup_lt_is_Some_2 (dots st') i) as [d Hd]; [lia|].
    exists d. split_and!; [done|by apply (Hact i d)|].
    apply (f_equal (.!! i)) in Hc'.
    rewrite !list_lookup_fmap, Hd, lookup_seq_lt in Hc' by lia.
    by injection Hc'.
Qed.

(** C5. For every N >= 1 and every curSlide in [0, N-1], the conditional
    wrap of next() computes (curSlide + 1) mod N and the conditional wrap of
    previous() computes (curSlide - 1 + N) mod N; both wrap at the ends and
    neither throws. *)
Theorem wrap_refines_modulo st c :
  dots_created st → at_index c st →
  (∃ st', nextSlide st = Normal st'
     ∧ curSlide st' = JS.Num (next_index_spec (maxSlide st) c))
  ∧ (∃ st', prevSlide st = Normal st'
     ∧ curSlide st' = JS.Num (previous_index_spec (maxSlide st) c)).
Proof.
  intros Hc Hat. split.
  - destruct (step_at_index Next st c Hc Hat) as (st' & Hrun & _ & _ & Hcur & _).
    by exists st'.
  - destruct (step_at_index Previous st c Hc Hat) as (st' & Hrun & _ & _ & Hcur & _).
    exists st'. split; [done|]. rewrite Hcur. unfold previous_index_spec.
    destruct Hat as [_ ?]. simpl.
    replace (c - 1 + maxSlide st) with (c + -1 + 1 * maxSlide st) by lia.
    by rewrite Z.mod_add by lia.
Qed.

Lemma next_full_cycle_witness :
  dots_created second_of_three ∧ at_index 1 second_of_three
  ∧ ∃ st', run (replicate (length (slides second_of_three)) Next) second_of_three
           = Normal st'
      ∧ curSlide st' = JS.Num 1.
Proof.
  assert (dots_created second_of_three) as Hc by reflexivity.
  assert (at_index 1 second_of_three) as Hat.
  { split; [reflexivity|]. unfold maxSlide; simpl; lia. }
  split_and!; [exact Hc|exact Hat|].
  exact (next_full_cycle second_of_three 1 Hc Hat).
Defined.

Lemma goTo_places_slides_and_dot_witness :
  dots_created second_of_three ∧ (2 < length (slides second_of_three))%nat
  ∧ ∃ st', goTo (JS.Num (Z.of_nat 2)) second_of_three = Normal st'
      ∧ length (slides st') = length (slides second_of_three)
      ∧ length (dots st') = length (slides second_of_three)
      ∧ (∀ p t, slides st' !! p = Some t
                → t = TranslateX (100 * (Z.of_nat p - Z.of_nat 2)))
      ∧ (∀ p, slides st' !! p = Some (TranslateX 0) ↔ p = 2%nat)
      ∧ (∀ j d, dots st' !! j = Some d → (active d = true ↔ j = 2%nat))
      ∧ (∃ d, dots st' !! 2%nat = Some d ∧ active d = true
              ∧ data_slide d = Some (JS.ToString (JS.Num (Z.of_nat 2)))).
Proof.
  assert (dots_created second_of_three) as Hc by reflexivity.
  assert (2 < length (slides second_of_three))%nat as Hi by (simpl; lia).
  split_and!; [exact Hc|exact Hi|].
  exact (goTo_places_slides_and_dot second_of_three 2 Hc Hi).
Defined.

Lemma wrap_refines_modulo_witness :
  dots_created second_of_three ∧ at_index 1 second_of_three
  ∧ (∃ st', nextSlide second_of_three = Normal st'
       ∧ curSlide st' = JS.Num (next_index_spec (maxSlide second_of_three) 1))
  ∧ (∃ st', prevSlide second_of_three = Normal st'
       ∧ curSlide st' = JS.Num (previous_index_spec (maxSlide second_of_three) 1)).
Proof.
  assert (dots_created second_of_three) as Hc by reflexivity.
  assert (at_index 1 second_of_three) as Hat.
  { split; [reflexivity|]. unfold maxSlide; simpl; lia. }
  split_and!; [exact Hc|exact Hat|..];
    apply (wrap_refines_modulo second_of_three 1 Hc Hat).
Defined.

(** [activateDot] returns exactly when some dot carries the wanted
    [data-slide]. *)
Lemma activateDot_returns (slide : JS.number) st :
  returns (activateDot slide st) = true
  ↔ ∃ d, d ∈ dots st ∧ data_slide d = Some (JS.ToString slide).
Proof.
  unfold activateDot.
  destruct (list_find _ _) as [[k d]|] eqn:Hfind; simpl.
  - split; [intros _|done].
    apply list_find_Some in Hfind as (Hk & Hd & _).
    apply list_elem_of_lookup_2, list_elem_of_fmap in Hk as (d0 & -> & Hin).
    by exists d0.
  - split; [done|]. intros (d & Hin & Hd).
    apply list_find_None in Hfind. rewrite Forall_forall in Hfind.
    destruct (Hfind (deactivate d)); [|done].
    apply list_elem_of_fmap. by exists d.
Qed.

Lemma activateDot_frame (slide : JS.number) st :
  curSlide (final (activateDot slide st)) = curSlide st
  ∧ slides (final (activateDot slide st)) = slides st.
Proof. unfold activateDot. by destruct (list_find _ _) as [[??]|]. Qed.


(** What [Number] makes of some [data-slide] values: a missing attribute,
    integers in several spellings, text that is no numeric literal, and
    literals whose value this model does not hold. *)
Lemma Number_readings :
  JS.Number None = Some JS.NaN
  ∧ JS.Number (Some "") = Some (JS.Num 0)
  ∧ JS.Number (Some " 7 ") = Some (JS.Num 7)
  ∧ JS.Number (Some "-7") = Some (JS.Num (-7))
  ∧ JS.Number (Some "007") = Some (JS.Num 7)
  ∧ JS.Number (Some "7.0") = Some (JS.Num 7)
  ∧ JS.Number (Some "1e0") = Some (JS.Num 1)
  ∧ JS.Number (Some "70e-1") = Some (JS.Num 7)
  ∧ JS.Number (Some "0x1f") = Some (JS.Num 31)
  ∧ JS.Number (Some "9007199254740991") = Some (JS.Num JS.MAX_SAFE_INTEGER)
  ∧ JS.Number (Some "2nd") = Some JS.NaN
  ∧ JS.Number (Some "seven") = Some JS.NaN
  ∧ JS.Number (Some "1e") = Some JS.NaN
  ∧ JS.Number (Some "1 2") = Some JS.NaN
  ∧ JS.Number (Some "0x") = Some JS.NaN
  ∧ JS.Number (Some "-0x7") = Some JS.NaN
  ∧ JS.Number (Some "1.5") = None
  ∧ JS.Number (Some "Infinity") = None
  ∧ JS.Number (Some "9007199254740992") = None.
Proof. split_and!; reflexivity. Qed.




End SliderFacts.

(** * Properties of the viewport observers *)

Section ViewportFacts.
Import Viewport.
Local Open Scope list_scope.
Local Open Scope nat_scope.

Implicit Types (p q : page) (e t : elem) (o : observer) (c : op) (en : entry).

Lemma exec_all_app cs1 cs2 p :
  exec_all (cs1 ++ cs2) p = exec_all cs2 (exec_all cs1 p).
Proof. apply foldl_app. Qed.

Lemma log_exec c p : log (exec c p) = log p ++ [c].
Proof. by destruct c as [| | | |[] ?|[] ?]. Qed.

Lemma log_exec_all cs p : log (exec_all cs p) = log p ++ cs.
Proof.
  revert p. induction cs as [|c cs IH]; intros p.
  - simpl. by rewrite app_nil_r.
  - change (exec_all (c :: cs) p) with (exec_all cs (exec c p)).
    rewrite IH, log_exec, <- app_assoc. done.
Qed.

Lemma mutations_app o e (l1 l2 : list op) :
  mutations o e (l1 ++ l2) = mutations o e l1 + mutations o e l2.
Proof. unfold mutations. by rewrite filter_app, length_app. Qed.

Lemma mutations_one o e c :
  mutations o e [c] = if is_mutation o e c then 1 else 0.
Proof.
  unfold mutations. rewrite filter_cons, filter_nil.
  destruct (is_mutation o e c); by case_decide.
Qed.

Lemma mutations_none o e (l : list op) :
  Forall (λ c, is_mutation o e c = false) l → mutations o e l = 0.
Proof.
  induction 1 as [|c l Hc _ IH]; [done|].
  change (c :: l) with ([c] ++ l). by rewrite mutations_app, mutations_one, Hc, IH.
Qed.

Lemma arming_not_mutation o e c : arming c → is_mutation o e c = false.
Proof. by destruct o, c. Qed.

Lemma blur_not_mutation o e t : is_mutation o e (ClassRemove t "lazy-img") = false.
Proof.
  destruct o; simpl; [|done]. apply bool_decide_eq_false. by intros [_ ?].
Qed.

(** A callback whose first entry is not intersecting makes no call. *)
Lemma deliver_not_intersecting o en (rest : list entry) p :
  isIntersecting en = false → deliver o (en :: rest) p = Some p.
Proof. intros H. unfold deliver. destruct o; simpl; by rewrite H. Qed.

(** [revealSection] on an intersecting first entry. *)
Lemma deliver_section en (rest : list entry) p :
  isIntersecting en = true →
  deliver sectionObserver (en :: rest) p
  = Some (Page
            (alter (λ n, Node (classList n ∖ {["section--hidden"]}) (src n)
                              (dataset_src n) (listeners n))
                   (target en) (dom p))
            (section_targets p ∖ {[target en]})
            (img_targets p)
            ((log p ++ [ClassRemove (target en) "section--hidden"])
               ++ [Unobserve sectionObserver (target en)])).
Proof. intros H. unfold deliver. simpl. by rewrite H. Qed.

(** [loadImg] on an intersecting first entry. *)
Lemma deliver_img en (rest : list entry) p :
  isIntersecting en = true →
  deliver imgObserver (en :: rest) p
  = Some (Page
            (alter (λ n, Node (classList n) (src n) (dataset_src n)
                              (listeners n
                                 ++ [("load", [ClassRemove (target en) "lazy-img"])]))
                   (target en)
               (alter (λ n, Node (classList n)
                                 (Some (default "undefined" (dataset_src n)))
                                 (dataset_src n) (listeners n))
                      (target en) (dom p)))
            (section_targets p)
            (img_targets p ∖ {[target en]})
            (((log p ++ [SrcFromDataset (target en)])
                ++ [AddListener (target en) "load"
                      [ClassRemove (target en) "lazy-img"]])
               ++ [Unobserve imgObserver (target en)])).
Proof. intros H. unfold deliver. simpl. by rewrite H. Qed.

(** The callbacks read the first entry only. *)
Lemma deliver_head o en (rest : list entry) p :
  deliver o (en :: rest) p = deliver o [en] p.
Proof. by destruct o. Qed.

Lemma exec_keeps_class (cl : string) e c p :
  c ≠ ClassRemove e cl → has_class cl e p → has_class cl e (exec c p).
Proof.
  intros Hc (n & Hn & Hcl). unfold has_class.
  destruct c as [e' cl'|e' cl'|e'|e' ty body|[] e'|[] e']; simpl;
    try (by exists n);
    rewrite lookup_alter; case_decide; subst; rewrite ?Hn; simpl;
    try (by exists n); eexists; (split; [done|]); simpl; try done.
  - set_solver.
  - assert (cl' ≠ cl) by congruence. set_solver.
Qed.

Lemma exec_all_keeps_class (cl : string) e (cs : list op) p :
  Forall (λ c, c ≠ ClassRemove e cl) cs →
  has_class cl e p → has_class cl e (exec_all cs p).
Proof.
  intros Hcs. revert p. induction Hcs as [|c cs Hc _ IH]; intros p Hp; [done|].
  apply (IH (exec c p)). by apply exec_keeps_class.
Qed.

Lemma exec_keeps_target o e c p :
  c ≠ Unobserve o e → e ∈ targets o p → e ∈ targets o (exec c p).
Proof.
  intros Hc He.
  destruct c as [| | | |[] e'|[] e'], o; simpl in *; try done; try set_solver.
  all: assert (e' ≠ e) by congruence; set_solver.
Qed.

Lemma exec_all_keeps_target o e (cs : list op) p :
  Forall (λ c, c ≠ Unobserve o e) cs →
  e ∈ targets o p → e ∈ targets o (exec_all cs p).
Proof.
  intros Hcs. revert p. induction Hcs as [|c cs Hc _ IH]; intros p Hp; [done|].
  apply (IH (exec c p)). by apply exec_keeps_target.
Qed.

(** Arming calls register no listener. *)
Lemma exec_arming_listeners c p e n' :
  arming c → dom (exec c p) !! e = Some n' →
  ∃ n, dom p !! e = Some n ∧ listeners n' = listeners n.
Proof.
  destruct c as [e' cl'| | | |[] e'|[] e']; simpl; try done; intros _;
    try (by exists n').
  rewrite lookup_alter. case_decide; [subst|by exists n'].
  intros (n & Hn & ->)%fmap_Some. by exists n.
Qed.

Lemma exec_all_arming_listeners (cs : list op) p e n' :
  Forall arming cs → dom (exec_all cs p) !! e = Some n' →
  ∃ n, dom p !! e = Some n ∧ listeners n' = listeners n.
Proof.
  intros Hcs. revert p. induction Hcs as [|c cs Hc _ IH]; intros p Hp.
  - by exists n'.
  - destruct (IH (exec c p) Hp) as (n1 & Hn1 & ->).
    by apply exec_arming_listeners in Hn1.
Qed.

Lemma arming_loops (allSections imgTargets : list elem) :
  Forall arming (hide_and_observe_sections allSections ++ observe_images imgTargets).
Proof.
  apply Forall_app. split.
  - unfold hide_and_observe_sections. apply Forall_forall.
    intros c (s & Hc & _)%list_elem_of_bind.
    apply elem_of_cons in Hc as [->|Hc]; [done|].
    by apply list_elem_of_singleton in Hc as ->.
  - unfold observe_images. apply Forall_fmap. by apply Forall_true.
Qed.

Lemma loaded_log d (allSections imgTargets : list elem) :
  log (loaded d allSections imgTargets)
  = hide_and_observe_sections allSections ++ observe_images imgTargets.
Proof. unfold loaded. by rewrite log_exec_all. Qed.

Lemma loaded_mutations d (allSections imgTargets : list elem) o e :
  mutations o e (log (loaded d allSections imgTargets)) = 0.
Proof.
  rewrite loaded_log. apply mutations_none.
  eapply Forall_impl; [apply arming_loops|]. intros c. apply arming_not_mutation.
Qed.

(** The page the script leaves behind satisfies both invariants. *)
Lemma loaded_invariant d (allSections imgTargets : list elem) :
  no_listeners d →
  tame (loaded d allSections imgTargets)
  ∧ one_shot (loaded d allSections imgTargets).
Proof.
  intros Hd. split.
  - intros e n' Hn'. unfold loaded in Hn'.
    apply exec_all_arming_listeners in Hn' as (n & Hn & Hl);
      [|apply arming_loops].
    rewrite Hl, (Hd e n Hn). split; [by apply Forall_nil|done].
  - intros o e. rewrite loaded_mutations. split; lia.
Qed.

Lemma blur_bodies e (ls : list (string * list op)) :
  Forall (λ l, l = ("load", [ClassRemove e "lazy-img"])) ls →
  filter (λ l, l.1 = "load") ls ≫= snd
  = replicate (length ls) (ClassRemove e "lazy-img").
Proof.
  induction 1 as [|l ls -> _ IH]; [done|].
  rewrite filter_cons_True by done.
  rewrite bind_cons, IH. done.
Qed.

Lemma exec_blur_invariant t p :
  tame p → one_shot p →
  tame (exec (ClassRemove t "lazy-img") p)
  ∧ one_shot (exec (ClassRemove t "lazy-img") p).
Proof.
  intros Ht Ho. split.
  - intros e n'. simpl. rewrite mutations_app, mutations_one, blur_not_mutation.
    rewrite Nat.add_0_r.
    destruct (decide (t = e)) as [<-|Hne].
    + rewrite lookup_alter_eq. intros (n & Hn & ->)%fmap_Some. simpl.
      exact (Ht _ _ Hn).
    + rewrite lookup_alter_ne by done. apply Ht.
  - intros o e. simpl. rewrite mutations_app, mutations_one, blur_not_mutation.
    rewrite Nat.add_0_r. destruct (Ho o e) as [? ?]. by destruct o.
Qed.

Lemma exec_all_blur_invariant (k : nat) t p :
  tame p → one_shot p →
  tame (exec_all (replicate k (ClassRemove t "lazy-img")) p)
  ∧ one_shot (exec_all (replicate k (ClassRemove t "lazy-img")) p)
  ∧ ∀ o, targets o (exec_all (replicate k (ClassRemove t "lazy-img")) p)
         = targets o p.
Proof.
  revert p. induction k as [|k IH]; intros p Ht Ho; [done|].
  destruct (exec_blur_invariant t p Ht Ho) as [Ht' Ho'].
  destruct (IH _ Ht' Ho') as (? & ? & Htg).
  split_and!; [done|done|].
  intros o. etrans; [apply Htg|]. by destruct o.
Qed.

Lemma fire_load_blur e p n :
  tame p → dom p !! e = Some n →
  fire e "load" p
  = exec_all (replicate (length (listeners n)) (ClassRemove e "lazy-img")) p.
Proof.
  intros Ht Hn. unfold fire. rewrite Hn.
  destruct (Ht _ _ Hn) as [Hl _]. by rewrite (blur_bodies e _ Hl).
Qed.

(** The bookkeeping of a callback whose first entry is intersecting. *)
Lemma deliver_intersecting o en (rest : list entry) p :
  isIntersecting en = true →
  ∃ q, deliver o (en :: rest) p = Some q
    ∧ (∀ o', targets o' q
             = if decide (o' = o) then targets o' p ∖ {[target en]}
               else targets o' p)
    ∧ (∀ e, e ≠ target en → dom q !! e = dom p !! e)
    ∧ ∀ o' e, mutations o' e (log q)
              = mutations o' e (log p)
                + (if bool_decide (o' = o ∧ e = target en) then 1 else 0).
Proof.
  intros Hi. destruct o.
  - rewrite deliver_section by done. eexists. split; [done|]. simpl.
    split_and!.
    + by intros [].
    + intros e He. by rewrite lookup_alter_ne.
    + intros o' e. rewrite !mutations_app, !mutations_one.
      destruct o'; simpl; repeat case_bool_decide; naive_solver lia.
  - rewrite deliver_img by done. eexists. split; [done|]. simpl.
    split_and!.
    + by intros [].
    + intros e He. by rewrite !lookup_alter_ne.
    + intros o' e. rewrite !mutations_app, !mutations_one.
      destruct o'; simpl; repeat case_bool_decide; naive_solver lia.
Qed.

(** The callbacks register blur listeners only. *)
Lemma deliver_tame o (batch : list entry) p q :
  deliver o batch p = Some q → tame p → tame q.
Proof.
  intros Hq Ht. destruct batch as [|en rest]; [by destruct o|].
  destruct (isIntersecting en) eqn:Hi.
  2:{ rewrite deliver_not_intersecting in Hq by done. by simplify_eq. }
  destruct o.
  - rewrite deliver_section in Hq by done. simplify_eq.
    intros e n'. simpl. rewrite !mutations_app, !mutations_one. simpl.
    rewrite !Nat.add_0_r.
    destruct (decide (target en = e)) as [<-|Hne].
    + rewrite lookup_alter_eq. intros (n & Hn & ->)%fmap_Some. simpl.
      exact (Ht _ _ Hn).
    + rewrite lookup_alter_ne by done. apply Ht.
  - rewrite deliver_img in Hq by done. simplify_eq.
    intros e n'. simpl. rewrite !mutations_app, !mutations_one. simpl.
    rewrite !Nat.add_0_r.
    destruct (decide (target en = e)) as [<-|Hne].
    + rewrite !lookup_alter_eq.
      intros (n1 & (n & Hn & ->)%fmap_Some & ->)%fmap_Some. simpl.
      destruct (Ht _ _ Hn) as [? ?]. split.
      * apply Forall_app. split; [done|]. by apply Forall_singleton.
      * intros _. rewrite bool_decide_eq_true_2 by done. lia.
    + rewrite !lookup_alter_ne by done. intros Hn.
      destruct (Ht _ _ Hn) as [? Hl]. split; [done|]. intros Hne'.
      specialize (Hl Hne'). lia.
Qed.

Lemma exec_remove_gone (cl : string) e p :
  ¬ has_class cl e (exec (ClassRemove e cl) p).
Proof.
  intros (n' & Hn' & Hcl). simpl in Hn'. rewrite lookup_alter_eq in Hn'.
  apply fmap_Some in Hn' as (n & _ & ->). simpl in Hcl. set_solver.
Qed.

Lemma exec_remove_stays_gone (cl cl' : string) e e' p :
  ¬ has_class cl e p → ¬ has_class cl e (exec (ClassRemove e' cl') p).
Proof.
  intros Hp (n' & Hn' & Hcl). apply Hp. simpl in Hn'.
  destruct (decide (e' = e)) as [->|Hne].
  - rewrite lookup_alter_eq in Hn'. apply fmap_Some in Hn' as (n & Hn & ->).
    exists n. split; [done|]. simpl in Hcl. set_solver.
  - rewrite lookup_alter_ne in Hn' by done. by exists n'.
Qed.

Lemma exec_all_remove_gone (k : nat) (cl : string) e p :
  ¬ has_class cl e (exec_all (replicate (S k) (ClassRemove e cl)) p).
Proof.
  change (exec_all (replicate (S k) (ClassRemove e cl)) p)
    with (exec_all (replicate k (ClassRemove e cl)) (exec (ClassRemove e cl) p)).
  pose proof (exec_remove_gone cl e p) as H. revert H.
  generalize (exec (ClassRemove e cl) p). induction k as [|k IH]; intros q Hq; [done|].
  apply (IH (exec (ClassRemove e cl) q)). by apply exec_remove_stays_gone.
Qed.

(** One dispatched event keeps both invariants and never adds a target. *)
Lemma handle_invariant (ev : event) p p' :
  enabled ev p → handle ev p = Some p' → tame p → one_shot p →
  tame p' ∧ one_shot p' ∧ ∀ o, targets o p' ⊆ targets o p.
Proof.
  intros Hen Hh Ht Ho. destruct ev as [o [|en rest]|e0]; simpl in *.
  - by destruct Hen.
  - split; [by eapply deliver_tame|].
    destruct Hen as [_ Hall]. apply Forall_cons in Hall as [Hin _].
    destruct (isIntersecting en) eqn:Hi.
    2:{ rewrite deliver_not_intersecting in Hh by done. by simplify_eq. }
    destruct (deliver_intersecting o en rest p Hi) as (q & Hq & Htg & _ & Hm).
    rewrite Hh in Hq. injection Hq as <-. split.
    + intros o' e. rewrite Hm, Htg. destruct (Ho o' e) as [Hle Hout].
      case_bool_decide as Hd.
      * destruct Hd as [-> ->]. rewrite decide_True by done.
        split; [|set_solver].
        destruct (decide (1 ≤ mutations o (target en) (log p)));
          [by destruct Hout|lia].
      * rewrite Nat.add_0_r. split; [done|]. intros H1.
        specialize (Hout H1). case_decide; set_solver.
    + intros o'. rewrite Htg. case_decide; set_solver.
  - simplify_eq. destruct (dom p !! e0) as [n|] eqn:Hn.
    + rewrite (fire_load_blur e0 p n Ht Hn).
      destruct (exec_all_blur_invariant (length (listeners n)) e0 p Ht Ho)
        as (? & ? & Htg).
      split_and!; try done. intros o. by rewrite Htg.
    + unfold fire. by rewrite Hn.
Qed.

Lemma reach_invariant p (evs : list event) p' :
  reach p evs p' → tame p → one_shot p →
  tame p' ∧ one_shot p' ∧ ∀ o, targets o p' ⊆ targets o p.
Proof.
  induction 1 as [p|p ev p1 evs p2 Hen Hh _ IH]; intros Ht Ho; [done|].
  destruct (handle_invariant ev p p1 Hen Hh Ht Ho) as (Ht1 & Ho1 & Hs1).
  destruct (IH Ht1 Ho1) as (Ht2 & Ho2 & Hs2).
  split_and!; try done. intros o. specialize (Hs1 o). specialize (Hs2 o). set_solver.
Qed.

Lemma arming_keeps_target (cs : list op) o e p :
  Forall arming cs → e ∈ targets o p → e ∈ targets o (exec_all cs p).
Proof.
  intros Hcs. apply exec_all_keeps_target.
  eapply Forall_impl; [exact Hcs|]. by intros [] ?.
Qed.

Lemma arming_keeps_class (cs : list op) (cl : string) e p :
  Forall arming cs → has_class cl e p → has_class cl e (exec_all cs p).
Proof.
  intros Hcs. apply exec_all_keeps_class.
  eapply Forall_impl; [exact Hcs|]. by intros [] ?.
Qed.

Lemma exec_all_dom_is_Some (cs : list op) p e :
  is_Some (dom p !! e) → is_Some (dom (exec_all cs p) !! e).
Proof.
  revert p. induction cs as [|c cs IH]; intros p Hp; [done|].
  apply (IH (exec c p)).
  destruct c as [e'|e'|e'|e'|[]|[]]; simpl; try done;
    (destruct (decide (e' = e)) as [->|];
     [rewrite lookup_alter_eq; by apply fmap_is_Some
     |by rewrite lookup_alter_ne]).
Qed.

(** Arming: every section of the document is watched and hidden when the
    script ends. *)
Lemma loaded_sections d (allSections imgTargets : list elem) s :
  s ∈ allSections → is_Some (d !! s) →
  s ∈ targets sectionObserver (loaded d allSections imgTargets)
  ∧ has_class "section--hidden" s (loaded d allSections imgTargets).
Proof.
  intros (l1 & l2 & ->)%list_elem_of_split Hs. unfold loaded.
  unfold hide_and_observe_sections.
  rewrite bind_app, bind_cons, <- !app_assoc, !exec_all_app.
  fold (hide_and_observe_sections l1). fold (hide_and_observe_sections l2).
  set (p1 := exec_all (hide_and_observe_sections l1) (Page d ∅ ∅ [])).
  assert (is_Some (dom p1 !! s)) as [n Hn] by by apply exec_all_dom_is_Some.
  rewrite <- exec_all_app.
  pose proof (arming_loops l2 imgTargets) as Harm.
  split; [apply arming_keeps_target|apply arming_keeps_class]; try done.
  - simpl. set_solver.
  - exists (Node ({["section--hidden"]} ∪ classList n) (src n) (dataset_src n)
                 (listeners n)).
    simpl. rewrite lookup_alter_eq, Hn. split; [done|]. simpl. set_solver.
Qed.

Lemma handle_log (ev : event) p p' :
  handle ev p = Some p' → ∃ l, log p' = log p ++ l.
Proof.
  destruct ev as [o batch|e]; simpl.
  - unfold deliver. destruct (callback o batch o) as [cs|]; [|done].
    simpl. intros [= <-]. exists cs. apply log_exec_all.
  - intros [= <-]. unfold fire. destruct (dom p !! e) as [n|].
    + eexists. apply log_exec_all.
    + exists []. by rewrite app_nil_r.
Qed.

Lemma reach_log p (evs : list event) p' :
  reach p evs p' → ∃ l, log p' = log p ++ l.
Proof.
  induction 1 as [p|p ev p1 evs p2 _ Hh _ [l2 IH]].
  - exists []. by rewrite app_nil_r.
  - destruct (handle_log _ _ _ Hh) as [l1 Hl1]. exists (l1 ++ l2).
    by rewrite IH, Hl1, app_assoc.
Qed.

Lemma reach_mutations_mono p (evs : list event) p' o e :
  reach p evs p' → mutations o e (log p) ≤ mutations o e (log p').
Proof.
  intros [l Hl]%reach_log. rewrite Hl, mutations_app. lia.
Qed.

(** No observer callback removes the blur class. *)
Lemma deliver_keeps_blur o (batch : list entry) p q e :
  deliver o batch p = Some q →
  has_class "lazy-img" e p → has_class "lazy-img" e q.
Proof.
  destruct batch as [|en rest]; [by destruct o|].
  destruct (isIntersecting en) eqn:Hi.
  2:{ rewrite deliver_not_intersecting by done. by intros [= <-]. }
  intros Hq Hc.
  assert (∃ cs, q = exec_all cs p ∧ Forall (λ c, c ≠ ClassRemove e "lazy-img") cs)
    as (cs & -> & Hcs).
  { unfold deliver in Hq.
    destruct (callback o (en :: rest) o) as [cs|] eqn:Hcb; [|done].
    injection Hq as <-. exists cs. split; [done|].
    destruct o; simpl in Hcb; rewrite Hi in Hcb; injection Hcb as <-;
      repeat constructor; discriminate. }
  by apply exec_all_keeps_class.
Qed.

(** The blur class goes only in a [load] event on the element itself, at a
    point where its [src] has been assigned. *)
Lemma blur_removed_by_load p0 (evs : list event) p e :
  reach p0 evs p → tame p0 → one_shot p0 →
  has_class "lazy-img" e p0 → ¬ has_class "lazy-img" e p →
  ∃ evs1 evs2 p1,
    evs = evs1 ++ LoadEvent e :: evs2 ∧ reach p0 evs1 p1
    ∧ 1 ≤ mutations imgObserver e (log p1).
Proof.
  induction 1 as [p|p ev p1 evs p2 Hen Hh Hr IH]; intros Ht Ho Hc Hnc; [done|].
  destruct (handle_invariant ev p p1 Hen Hh Ht Ho) as (Ht1 & Ho1 & _).
  assert (has_class "lazy-img" e p1
          ∨ (ev = LoadEvent e ∧ 1 ≤ mutations imgObserver e (log p)))
    as [Hc1|[-> Hm]].
  { destruct ev as [o batch|e0]; simpl in Hh.
    - left. by eapply deliver_keeps_blur.
    - simplify_eq. destruct (decide (e0 = e)) as [->|Hne].
      + destruct Hc as (n & Hn & Hcl).
        destruct (listeners n) as [|l ls] eqn:Hl.
        * left. rewrite (fire_load_blur e p n Ht Hn), Hl. simpl. by exists n.
        * right. split; [done|]. destruct (Ht _ _ Hn) as [_ Hm].
          apply Hm. by rewrite Hl.
      + left. unfold fire. destruct (dom p !! e0) as [n0|] eqn:Hn0; [|done].
        destruct (Ht _ _ Hn0) as [Hls _]. rewrite (blur_bodies e0 _ Hls).
        apply exec_all_keeps_class; [|done].
        apply Forall_replicate. congruence. }
  - destruct (IH Ht1 Ho1 Hc1 Hnc) as (evs1 & evs2 & q & -> & Hr1 & Hm).
    exists (ev :: evs1), evs2, q. split_and!; [done| |done].
    by eapply reach_cons.
  - exists [], evs, p. split_and!; [done|constructor|done].
Qed.

(** C6 (a defect of the code). On the page of two sections and two images,
    right after the script ran, the notifier hands [revealSection] one batch
    in which sections 0 and 1 both report intersecting: for either it is the
    first notification that does.  Section 0, the leading entry, is settled
    as the claim has it: the reveal is applied once, the hidden class is
    gone and the section is watched no more.  Section 1 is not: no reveal is
    applied to it, it keeps the hidden class and it stays watched, since
    [const [entry] = entries] keeps the first entry only. *)
Theorem later_entry_not_settled :
  deliverable sectionObserver [Entry 0 true; Entry 1 true] two_by_two_loaded
  ∧ mutations sectionObserver 0 (log two_by_two_loaded) = 0
  ∧ mutations sectionObserver 1 (log two_by_two_loaded) = 0
  ∧ ∃ q, both_sections_enter = Some q
      ∧ mutations sectionObserver 0 (log q) = 1
      ∧ ¬ has_class "section--hidden" 0 q
      ∧ (0 ∉ targets sectionObserver q)
      ∧ mutations sectionObserver 1 (log q) = 0
      ∧ has_class "section--hidden" 1 q
      ∧ 1 ∈ targets sectionObserver q.
Proof.
  split.
  { split; [discriminate|]. repeat constructor; vm_compute; reflexivity. }
  split; [vm_compute; reflexivity|]. split; [vm_compute; reflexivity|].
  eexists. split; [reflexivity|]. split_and!.
  - vm_compute. reflexivity.
  - intros (n & Hn & Hcl). vm_compute in Hn. injection Hn as <-.
    vm_compute in Hcl. discriminate.
  - intros H. vm_compute in H. discriminate.
  - vm_compute. reflexivity.
  - eexists. split; vm_compute; reflexivity.
  - vm_compute. reflexivity.
Qed.

Lemma report_below o e (ratio : Q) :
  (ratio < threshold (observer_options o))%Q →
  isIntersecting (report o e ratio) = false.
Proof.
  intros Hlt. unfold report. simpl.
  destruct (Qle_bool _ ratio) eqn:Hle; [|done].
  apply Qle_bool_iff in Hle. by apply Qlt_not_le in Hlt.
Qed.

Lemma report_reached o e (ratio : Q) :
  (threshold (observer_options o) <= ratio)%Q →
  isIntersecting (report o e ratio) = true.
Proof. intros Hle. unfold report. simpl. by apply Qle_bool_iff. Qed.

(** C7 (a defect of the code). The section observer has threshold 0.15 and
    the script hid and armed sections 0 and 1.  Both reach 20% visibility in
    the same frame and the notifier hands [revealSection] both entries, each
    reporting intersecting, in one batch.  Section 0 is revealed; section 1,
    although at least 15% visible, is not: it keeps the hidden class, no
    reveal was applied to it and it is still watched, since the callback
    reads the first entry only. *)
Theorem section_at_20_not_revealed :
  threshold (observer_options sectionObserver) = (15 # 100)%Q
  ∧ has_class "section--hidden" 1 two_by_two_loaded
  ∧ isIntersecting (report sectionObserver 0 (20 # 100)) = true
  ∧ isIntersecting (report sectionObserver 1 (20 # 100)) = true
  ∧ deliverable sectionObserver
      [report sectionObserver 0 (20 # 100); report sectionObserver 1 (20 # 100)]
      two_by_two_loaded
  ∧ ∃ q, both_sections_at_20 = Some q
      ∧ ¬ has_class "section--hidden" 0 q
      ∧ has_class "section--hidden" 1 q
      ∧ mutations sectionObserver 1 (log q) = 0
      ∧ 1 ∈ targets sectionObserver q.
Proof.
  split; [reflexivity|].
  split; [eexists; split; vm_compute; reflexivity|].
  split; [reflexivity|]. split; [reflexivity|].
  split.
  { split; [discriminate|]. repeat constructor; vm_compute; reflexivity. }
  eexists. split; [reflexivity|]. split_and!.
  - intros (n & Hn & Hcl). vm_compute in Hn. injection Hn as <-.
    vm_compute in Hcl. discriminate.
  - eexists. split; vm_compute; reflexivity.
  - vm_compute. reflexivity.
  - vm_compute. reflexivity.
Qed.

(** C8 (a defect of the code). The image observer has threshold 0 and the
    margin 200px.  Images 2 and 3 come within the margin in the same frame
    and the notifier hands [loadImg] both entries in one batch, the first
    intersecting notification of either.  Image 2, the leading entry, gets
    its src from data-src and a load listener, keeps the blur class for now
    and is watched no more.  Image 3 does not: its src still holds the
    placeholder, no src assignment was made, it has no load listener and it
    is still watched, since the callback reads the first entry only. *)
Theorem later_image_not_loaded :
  threshold (observer_options imgObserver) = 0%Q
  ∧ rootMargin (observer_options imgObserver) = Some "200px"
  ∧ deliverable imgObserver [Entry 2 true; Entry 3 true] two_by_two_loaded
  ∧ mutations imgObserver 3 (log two_by_two_loaded) = 0
  ∧ ∃ q, both_images_enter = Some q
      ∧ dom q !! 2
        = Some (Node {["lazy-img"]} (Some "img/digital.jpg")
                     (Some "img/digital.jpg")
                     [("load", [ClassRemove 2 "lazy-img"])])
      ∧ (2 ∉ targets imgObserver q)
      ∧ dom q !! 3
        = Some (Node {["lazy-img"]} (Some "img/grow-lazy.jpg")
                     (Some "img/grow.jpg") [])
      ∧ mutations imgObserver 3 (log q) = 0
      ∧ 3 ∈ targets imgObserver q.
Proof.
  split; [reflexivity|]. split; [reflexivity|].
  split.
  { split; [discriminate|]. repeat constructor; vm_compute; reflexivity. }
  split; [vm_compute; reflexivity|].
  eexists. split; [reflexivity|]. split_and!.
  - vm_compute. reflexivity.
  - intros H. vm_compute in H. discriminate.
  - vm_compute. reflexivity.
  - vm_compute. reflexivity.
  - vm_compute. reflexivity.
Qed.

(** C10. Both viewport callbacks process only the first entry of a batch:
    the outcome of an invocation is that of the batch cut down to its first
    entry, and the element of an entry after the first (one that is not
    also the first entry's element) keeps its node, its watched status and
    its mutation count, whatever the entry's intersection state. *)
Theorem callbacks_read_first_entry o en (rest : list entry) p x :
  x ∈ rest → target x ≠ target en →
  deliver o (en :: rest) p = deliver o [en] p
  ∧ ∃ q, deliver o (en :: rest) p = Some q
      ∧ dom q !! target x = dom p !! target x
      ∧ (target x ∈ targets o q ↔ target x ∈ targets o p)
      ∧ mutations o (target x) (log q) = mutations o (target x) (log p).
Proof.
  intros _ Hne. split; [apply deliver_head|].
  destruct (isIntersecting en) eqn:Hi.
  - destruct (deliver_intersecting o en rest p Hi) as (q & Hq & Htg & Hdom & Hm).
    exists q. split_and!; [done|by apply Hdom| |].
    + rewrite Htg, decide_True by done. set_solver.
    + rewrite Hm, bool_decide_eq_false_2 by naive_solver. lia.
  - exists p. by rewrite deliver_not_intersecting.
Qed.

Lemma callbacks_read_first_entry_witness :
  Entry 3 true ∈ [Entry 3 true] ∧ target (Entry 3 true) ≠ target (Entry 2 true)
  ∧ deliver imgObserver (Entry 2 true :: [Entry 3 true]) two_by_two_loaded
    = deliver imgObserver [Entry 2 true] two_by_two_loaded
  ∧ ∃ q, deliver imgObserver (Entry 2 true :: [Entry 3 true]) two_by_two_loaded
         = Some q
      ∧ dom q !! target (Entry 3 true) = dom two_by_two_loaded !! target (Entry 3 true)
      ∧ (target (Entry 3 true) ∈ targets imgObserver q
         ↔ target (Entry 3 true) ∈ targets imgObserver two_by_two_loaded)
      ∧ mutations imgObserver (target (Entry 3 true)) (log q)
        = mutations imgObserver (target (Entry 3 true)) (log two_by_two_loaded).
Proof.
  assert (Entry 3 true ∈ [Entry 3 true]) as H1 by constructor.
  assert (target (Entry 3 true) ≠ target (Entry 2 true)) as H2 by (simpl; lia).
  split_and!; [exact H1|exact H2|..];
    apply (callbacks_read_first_entry imgObserver (Entry 2 true) [Entry 3 true]
             two_by_two_loaded (Entry 3 true) H1 H2).
Defined.

End ViewportFacts.

(** * Properties of the booking form *)

Section BookingFacts.
Import Booking.
Local Open Scope list_scope.
Local Open Scope nat_scope.



End BookingFacts.

(** * Further properties of the slider *)

Section SliderMore.
Import Slider.
Local Open Scope list_scope.

Implicit Types (st : state) (c k z : Z) (i j p n : nat).

Lemma goToSlide_offsets st c :
  slides (goToSlide (JS.Num c) st)
  = (λ p, TranslateX (100 * (Z.of_nat p - c))) <$> seq 0 (length (slides st)).
Proof.
  unfold goToSlide. simpl. apply list_eq. intros p.
  rewrite list_lookup_imap, list_lookup_fmap.
  destruct (decide (p < length (slides st))%nat) as [Hlt|Hge].
  - rewrite lookup_seq_lt by done.
    destruct (lookup_lt_is_Some_2 (slides st) p Hlt) as [t ->]. done.
  - rewrite lookup_seq_ge by lia. by rewrite lookup_ge_None_2 by lia.
Qed.

Lemma activateDot_marks st i :
  dots_created st → (i < length (slides st))%nat →
  activateDot (JS.Num (Z.of_nat i)) st
  = Normal (set_dots (dots (shown (length (slides st)) (Z.of_nat i))) st).
Proof.
  intros Hc Hi. unfold activateDot.
  rewrite (created_cleared _ Hc), (find_new_dot _ _ Hi). do 2 f_equal.
  simpl. apply list_eq. intros j. destruct (decide (j = i)) as [->|Hne].
  - rewrite list_lookup_insert_eq by (by rewrite length_fmap, length_seq).
    rewrite list_lookup_fmap, lookup_seq_lt by done. simpl.
    by rewrite bool_decide_eq_true_2.
  - rewrite list_lookup_insert_ne by done. rewrite !list_lookup_fmap.
    destruct (seq 0 (length (slides st)) !! j) as [j'|] eqn:Hj; [|done].
    apply lookup_seq in Hj as [-> _]. simpl. unfold new_dot. do 2 f_equal.
    rewrite bool_decide_eq_false_2; [done|lia].
Qed.

(** [goTo] at a slide index leaves the shown state of that index, whatever
    the offsets and markers were. *)
Lemma goTo_shown st i :
  dots_created st → (i < length (slides st))%nat →
  goTo (JS.Num (Z.of_nat i)) (set_curSlide (JS.Num (Z.of_nat i)) st)
  = Normal (shown (length (slides st)) (Z.of_nat i)).
Proof.
  intros Hc Hi. unfold goTo.
  set (st1 := goToSlide _ _).
  assert (length (slides st1) = length (slides st)) as Hlen.
  { subst st1. unfold goToSlide. simpl. by rewrite length_imap. }
  rewrite activateDot_marks.
  - rewrite Hlen. unfold shown, set_dots. f_equal. f_equal.
    subst st1. by rewrite goToSlide_offsets.
  - by apply goToSlide_created.
  - by rewrite Hlen.
Qed.

Lemma shown_created n c : dots_created (shown n c).
Proof.
  unfold dots_created, shown. simpl.
  by rewrite length_fmap, length_seq, <- list_fmap_compose.
Qed.

Lemma shown_at_index n c : 0 ≤ c < Z.of_nat n → at_index c (shown n c).
Proof.
  intros Hc. split; [done|]. unfold maxSlide, shown. simpl.
  by rewrite length_fmap, length_seq.
Qed.

Lemma shown_length n c : length (slides (shown n c)) = n.
Proof. unfold shown. simpl. by rewrite length_fmap, length_seq. Qed.

Lemma step_goTo m st c :
  at_index c st →
  step m st
  = goTo (JS.Num ((c + delta m) mod maxSlide st))
         (set_curSlide (JS.Num ((c + delta m) mod maxSlide st)) st).
Proof.
  intros [Hcur Hr]. unfold maxSlide in *.
  set (n := Z.of_nat (length (slides st))) in *.
  destruct m; simpl; unfold nextSlide, prevSlide, maxSlide; rewrite Hcur;
    fold n; simpl; case_bool_decide as Hd.
  - replace ((c + 1) mod n) with 0; [done|].
    rewrite Hd. replace (n - 1 + 1) with (0 + 1 * n) by lia.
    rewrite Z.mod_add by lia. by rewrite Z.mod_small by lia.
  - by rewrite (Z.mod_small (c + 1)) by lia.
  - replace ((c + -1) mod n) with (n - 1); [done|].
    rewrite Hd. replace (0 + -1) with (n - 1 + (-1) * n) by lia.
    rewrite Z.mod_add by lia. by rewrite Z.mod_small by lia.
  - rewrite (Z.mod_small (c + -1)) by lia.
    by replace (c + -1) with (c - 1) by lia.
Qed.

Lemma step_shown m st c :
  dots_created st → at_index c st →
  step m st
  = Normal (shown (length (slides st)) ((c + delta m) mod maxSlide st)).
Proof.
  intros Hc Hat. rewrite (step_goTo m st c Hat).
  destruct Hat as [_ Hr].
  pose proof (Z.mod_pos_bound (c + delta m) (maxSlide st)) as Hb.
  unfold maxSlide in *.
  rewrite <- (Z2Nat.id ((c + delta m) mod Z.of_nat (length (slides st)))) by lia.
  apply goTo_shown; [done|lia].
Qed.

Lemma run_shown ms n c :
  0 ≤ c < Z.of_nat n →
  run ms (shown n c) = Normal (shown n ((c + displacement ms) mod Z.of_nat n)).
Proof.
  revert c. induction ms as [|m ms IH]; intros c Hc.
  - simpl. change (displacement []) with 0. rewrite Z.add_0_r.
    by rewrite Z.mod_small.
  - cbn [run].
    rewrite (step_shown m (shown n c) c (shown_created n c) (shown_at_index n c Hc)).
    unfold maxSlide. rewrite shown_length. cbn [andThen].
    rewrite IH by (apply Z.mod_pos_bound; lia).
    rewrite displacement_cons, Z.add_mod_idemp_l by lia.
    by rewrite Z.add_assoc.
Qed.

Lemma slider_shown (panels : list transform) :
  (1 ≤ length panels)%nat →
  slider panels [] = Normal (shown (length panels) 0).
Proof.
  intros HN. unfold slider, init.
  set (st1 := createDots (goToSlide (JS.Num 0) (State (JS.Num 0) panels []))).
  assert (length (slides st1) = length panels) as Hlen.
  { subst st1. simpl. by rewrite length_imap. }
  assert (dots_created st1) as Hc.
  { unfold dots_created. subst st1. simpl.
    rewrite (imap_seq_0 _ new_dot), length_imap, <- list_fmap_compose. done. }
  pose proof (activateDot_marks st1 0 Hc) as Ha.
  change (Z.of_nat 0) with 0 in Ha. rewrite Ha by lia.
  rewrite Hlen. unfold shown, set_dots. f_equal. f_equal.
  subst st1. simpl.
  pose proof (goToSlide_offsets (State (JS.Num 0) panels []) 0) as H.
  simpl in H. exact H.
Qed.

(** X1. After slider() and any sequence of next/previous calls the whole
    state is the shown state of the index (nexts - previouses) mod N:
    exactly one slide at offset 0 and exactly one active dot, for the same
    index. *)
Theorem arrows_keep_shown (panels : list transform) (ms : list move) :
  (1 ≤ length panels)%nat →
  andThen (slider panels []) (run ms)
  = Normal (shown (length panels)
              (displacement ms mod Z.of_nat (length panels))).
Proof.
  intros HN. rewrite (slider_shown panels HN). cbn [andThen].
  rewrite run_shown by lia. by rewrite Z.add_0_l.
Qed.

Lemma arrows_keep_shown_witness :
  (1 ≤ length three_panels)%nat
  ∧ andThen (slider three_panels []) (run [Previous; Next; Next; Next; Next])
    = Normal (shown (length three_panels)
                (displacement [Previous; Next; Next; Next; Next]
                 mod Z.of_nat (length three_panels))).
Proof.
  split; [simpl; lia|].
  apply (arrows_keep_shown three_panels [Previous; Next; Next; Next; Next]).
  simpl; lia.
Defined.

(** X2. next() and previous() undo each other: from the shown state of any
    index c of N slides, next then previous, and previous then next, both
    return exactly that state. *)
Theorem next_previous_inverse n c :
  0 ≤ c < Z.of_nat n →
  andThen (nextSlide (shown n c)) prevSlide = Normal (shown n c)
  ∧ andThen (prevSlide (shown n c)) nextSlide = Normal (shown n c).
Proof.
  intros Hc.
  pose proof (run_shown [Next; Previous] n c Hc) as H1.
  pose proof (run_shown [Previous; Next] n c Hc) as H2.
  cbn [run step] in H1, H2.
  assert (∀ x f, andThen x (λ st, andThen (f st) Normal) = andThen x f) as Hn.
  { intros [st|st] f; simpl; [|done]. by destruct (f st). }
  rewrite Hn in H1, H2.
  rewrite H1, H2.
  change (displacement [Next; Previous]) with 0.
  change (displacement [Previous; Next]) with 0.
  rewrite Z.add_0_r, Z.mod_small by done. done.
Qed.

Lemma next_previous_inverse_witness :
  0 ≤ 2 < Z.of_nat 3
  ∧ andThen (nextSlide (shown 3 2)) prevSlide = Normal (shown 3 2)
  ∧ andThen (prevSlide (shown 3 2)) nextSlide = Normal (shown 3 2).
Proof.
  assert (0 ≤ 2 < Z.of_nat 3) as H by (simpl; lia).
  split; [exact H|]. exact (next_previous_inverse 3 2 H).
Defined.

Lemma activateDot_dots (slide : JS.number) st :
  data_slide <$> dots (final (activateDot slide st)) = data_slide <$> dots st.
Proof.
  unfold activateDot.
  assert (data_slide <$> (deactivate <$> dots st) = data_slide <$> dots st) as Hcl.
  { rewrite <- list_fmap_compose. by apply list_fmap_ext. }
  destruct (list_find _ _) as [[k d]|] eqn:Hfind; simpl; [|done].
  rewrite list_fmap_insert. simpl. rewrite Hcl. apply list_insert_id.
  apply list_find_Some in Hfind as (Hk & _ & _).
  rewrite <- Hcl, list_lookup_fmap, Hk. done.
Qed.

Lemma goTo_same_frame (v : JS.number) st : same_frame st (final (goTo v st)).
Proof.
  unfold goTo, same_frame.
  destruct (activateDot_frame v (goToSlide v st)) as [_ ->].
  rewrite activateDot_dots.
  by destruct (goToSlide_frame st v) as (_ & -> & ->).
Qed.

(** X3. activateDot never leaves two dots active, on any set of dots and
    for NaN or any safe integer as its argument: when it returns, the one
    active dot is the first dot carrying the wanted data-slide; when it
    throws, no dot is active. *)
Theorem activateDot_one_active (slide : JS.number) st :
  JS.safe_number slide →
  (∀ j1 j2 d1 d2,
     dots (final (activateDot slide st)) !! j1 = Some d1 →
     dots (final (activateDot slide st)) !! j2 = Some d2 →
     active d1 = true → active d2 = true → j1 = j2)
  ∧ (returns (activateDot slide st) = true →
     ∃ j d, dots (final (activateDot slide st)) !! j = Some d
       ∧ active d = true
       ∧ data_slide d = Some (JS.ToString slide)
       ∧ ∀ j' d', (j' < j)%nat → dots st !! j' = Some d' →
                  data_slide d' ≠ Some (JS.ToString slide))
  ∧ (returns (activateDot slide st) = false →
     ∀ d, d ∈ dots (final (activateDot slide st)) → active d = false).
Proof.
  intros _. unfold activateDot.
  assert (∀ j d, (deactivate <$> dots st) !! j = Some d → active d = false) as Hoff.
  { intros j d. rewrite list_lookup_fmap. by intros (d0 & _ & ->)%fmap_Some. }
  destruct (list_find _ _) as [[k d]|] eqn:Hfind; simpl.
  - apply list_find_Some in Hfind as (Hk & Hd & Hfirst).
    assert (∀ j x, <[k:=activate d]> (deactivate <$> dots st) !! j = Some x →
                   active x = true → j = k) as Hone.
    { intros j x Hj Hx. destruct (decide (j = k)) as [|Hne]; [done|].
      rewrite list_lookup_insert_ne in Hj by done.
      apply Hoff in Hj. congruence. }
    split_and!; [|intros _|done].
    + intros j1 j2 d1 d2 H1 H2 A1 A2.
      rewrite (Hone _ _ H1 A1), (Hone _ _ H2 A2). done.
    + exists k, (activate d). split_and!; [|done|done|].
      * apply list_lookup_insert_eq. by eapply lookup_lt_Some.
      * intros j' d' Hlt Hj'. apply (Hfirst j' (deactivate d')); [|done].
        by rewrite list_lookup_fmap, Hj'.
  - split_and!; [|done|intros _].
    + intros j1 j2 d1 d2 H1 _ A1. apply Hoff in H1. congruence.
    + intros d (j & Hj)%list_elem_of_lookup. by eapply Hoff.
Qed.

Lemma activateDot_one_active_witness :
  JS.safe_number (JS.Num 2)
  ∧ (∀ j1 j2 d1 d2,
       dots (final (activateDot (JS.Num 2) second_of_three)) !! j1 = Some d1 →
       dots (final (activateDot (JS.Num 2) second_of_three)) !! j2 = Some d2 →
       active d1 = true → active d2 = true → j1 = j2)
  ∧ (returns (activateDot (JS.Num 2) second_of_three) = true →
     ∃ j d, dots (final (activateDot (JS.Num 2) second_of_three)) !! j = Some d
       ∧ active d = true
       ∧ data_slide d = Some (JS.ToString (JS.Num 2))
       ∧ ∀ j' d', (j' < j)%nat → dots second_of_three !! j' = Some d' →
                  data_slide d' ≠ Some (JS.ToString (JS.Num 2)))
  ∧ (returns (activateDot (JS.Num 2) second_of_three) = false →
     ∀ d, d ∈ dots (final (activateDot (JS.Num 2) second_of_three))
          → active d = false).
Proof.
  assert (JS.safe_number (JS.Num 2)) as H by (vm_compute; split; discriminate).
  split; [exact H|].
  exact (activateDot_one_active (JS.Num 2) second_of_three H).
Defined.

(** X4. No handler of the slider adds, removes or relabels a slide or a
    dot: after next, previous, a dot click or a key press, returned or
    thrown, the number of slides and the data-slide of every dot are what
    they were. *)
Theorem handlers_keep_frame st :
  (∀ m, same_frame st (final (step m st)))
  ∧ (∀ t r, dotClick t st = Some r → same_frame st (final r))
  ∧ (∀ key, same_frame st (final (keydown key st))).
Proof.
  assert (∀ v, same_frame st (final (goTo v (set_curSlide v st)))) as Hgo.
  { intros v. apply (goTo_same_frame v (set_curSlide v st)). }
  assert (same_frame st st) as Hrefl by done.
  assert (∀ m, same_frame st (final (step m st))) as Hstep.
  { intros []; apply Hgo. }
  split_and!; [done| |].
  - intros t r. unfold dotClick. destruct t as [k|]; [|by intros [= <-]].
    destruct (dots st !! k) as [d|]; [|by intros [= <-]].
    destruct (JS.Number (data_slide d)) as [v|]; [|done].
    intros [= <-]. apply Hgo.
  - intros key. unfold keydown.
    case_bool_decide as Hl; case_bool_decide as Hr; subst; try done.
    + pose proof (Hstep Previous) as H. simpl in H.
      by destruct (prevSlide st).
    + apply (Hstep Next).
Qed.






(** X7. On a page without .slide elements slider() throws in init, at
    activateDot(0), unless the markup already holds a dot with
    data-slide="0"; no slide and no dot is created either way. *)
Theorem slider_without_slides (found : list dot) :
  (returns (slider [] found) = true
   ↔ ∃ d, d ∈ found ∧ data_slide d = Some "0")
  ∧ slides (final (slider [] found)) = []
  ∧ data_slide <$> dots (final (slider [] found)) = data_slide <$> found.
Proof.
  unfold slider, init. split_and!.
  - rewrite activateDot_returns. simpl. by rewrite app_nil_r.
  - by destruct (activateDot_frame (JS.Num 0)
                   (createDots (goToSlide (JS.Num 0) (State (JS.Num 0) [] found))))
      as [_ ->].
  - rewrite activateDot_dots. simpl. by rewrite app_nil_r.
Qed.

(** Decoding what template literals print. *)

Lemma digit_char (d : N) :
  (d < 10)%N →
  JS.is_digit (pretty_N_char d) = true
  ∧ Z.of_N (JS.code (pretty_N_char d)) - 48 = Z.of_N d.
Proof.
  intros Hd.
  assert (d = 0 ∨ d = 1 ∨ d = 2 ∨ d = 3 ∨ d = 4 ∨ d = 5 ∨ d = 6 ∨ d = 7
          ∨ d = 8 ∨ d = 9)%N as Hcases by lia.
  destruct_or!; subst; by vm_compute.
Qed.

Lemma digit_not_space (a : ascii) : JS.is_digit a = true → JS.is_space a = false.
Proof.
  unfold JS.is_digit, JS.is_space.
  intros [H1 H2]%andb_true_iff. apply N.leb_le in H1, H2.
  apply orb_false_iff. split.
  - apply andb_false_iff. right. apply N.leb_gt. lia.
  - apply N.eqb_neq. lia.
Qed.

Lemma digit_not_sign (a : ascii) :
  JS.is_digit a = true → a ≠ "-"%char ∧ a ≠ "+"%char.
Proof. intros H. split; intros ->; by vm_compute in H. Qed.

Lemma digits_value_app (acc : Z) (l1 l2 : list ascii) :
  JS.digits_value acc (l1 ++ l2)
  = JS.digits_value acc l1 ≫= λ a, JS.digits_value a l2.
Proof.
  revert acc. induction l1 as [|a l1 IH]; intros acc; [done|].
  simpl. destruct (JS.is_digit a); [apply IH|done].
Qed.

(** The characters [pretty_N_go x s] puts before [s] are the decimal digits
    of [x]. *)
Lemma pretty_go_digits (x : N) (s : string) :
  ∃ l, list_ascii_of_string (pretty_N_go x s) = l ++ list_ascii_of_string s
    ∧ Forall (λ a, JS.is_digit a = true) l
    ∧ (∀ acc, JS.digits_value acc l
              = Some (acc * 10 ^ Z.of_nat (length l) + Z.of_N x))
    ∧ ((0 < x)%N → l ≠ []).
Proof.
  revert s. induction (N.lt_wf_0 x) as [x _ IH]; intros s.
  destruct (decide (x = 0%N)) as [->|Hx].
  - exists []. rewrite pretty_N_go_0. split_and!; [done|done| |lia].
    intros acc. simpl. f_equal. lia.
  - rewrite pretty_N_go_step by lia.
    destruct (IH (x `div` 10)%N) with (s := String (pretty_N_char (x `mod` 10)) s)
      as (l & Hl & Hdig & Hval & _).
    { apply N.div_lt; lia. }
    destruct (digit_char (x `mod` 10)%N) as [Hd Hc].
    { apply N.mod_lt. lia. }
    exists (l ++ [pretty_N_char (x `mod` 10)]). split_and!.
    + rewrite Hl. simpl. by rewrite <- app_assoc.
    + apply Forall_app. split; [done|]. by apply Forall_singleton.
    + intros acc. rewrite digits_value_app, Hval. simpl. rewrite Hd, Hc.
      f_equal. rewrite length_app. simpl.
      rewrite Nat2Z.inj_add, Z.pow_add_r by lia.
      rewrite N2Z.inj_div, N2Z.inj_mod. simpl Z.of_N at 1.
      pose proof (Z.div_mod (Z.of_N x) 10). change (Z.of_N 10) with 10. lia.
    + intros _. by destruct l.
Qed.

Lemma trim_digits (l : list ascii) :
  Forall (λ a, JS.is_digit a = true) l → JS.trim l = l.
Proof.
  intros Hl. unfold JS.trim.
  assert (∀ w : list ascii,
            Forall (λ a, JS.is_digit a = true) w → JS.drop_space w = w) as Hd.
  { intros [|a w] Hw; [done|]. simpl.
    apply Forall_cons in Hw as [Ha _]. by rewrite (digit_not_space a Ha). }
  rewrite (Hd l Hl), (Hd (rev l)) by (by apply List.Forall_rev).
  apply rev_involutive.
Qed.

Lemma digits_ascii (l : list ascii) :
  Forall (λ a, JS.is_digit a = true) l → forallb JS.is_ascii l = true.
Proof.
  induction 1 as [|a l Ha _ IH]; [done|]. simpl. rewrite IH, andb_true_r.
  unfold JS.is_digit, JS.is_ascii in *.
  apply andb_true_iff in Ha as [_ H2]. apply N.leb_le in H2.
  apply N.ltb_lt. lia.
Qed.

Lemma span_digits_all (l : list ascii) :
  Forall (λ a, JS.is_digit a = true) l → JS.span_digits l = (l, []).
Proof.
  induction 1 as [|a l Ha _ IH]; [done|]. simpl. by rewrite Ha, IH.
Qed.

(** A run of digits is no hexadecimal, octal or binary literal. *)
Lemma non_decimal_digits (l : list ascii) :
  Forall (λ a, JS.is_digit a = true) l → JS.non_decimal l = None.
Proof.
  intros Hl. destruct l as [|z [|p [|d ds]]]; try done.
  unfold JS.non_decimal. case_bool_decide; [|done].
  apply Forall_cons in Hl as [_ Hl]. apply Forall_cons in Hl as [Hp _].
  unfold JS.radix_of.
  rewrite !bool_decide_eq_false_2; [done|..]; intros ->; by vm_compute in Hp.
Qed.

(** A run of digits read as a decimal literal. *)
Lemma decimal_digits (l : list ascii) (z : Z) :
  Forall (λ a, JS.is_digit a = true) l → l ≠ [] →
  JS.digits_value 0 l = Some z →
  JS.decimal l = Some (length l, z, 0).
Proof.
  intros Hl Hne Hz. unfold JS.decimal.
  rewrite (span_digits_all l Hl), app_nil_r.
  destruct l as [|a l]; [done|]. rewrite Hz. done.
Qed.

(** [Number] reads back the index a template literal printed. *)
Lemma Number_ToString (i : nat) :
  Z.of_nat i ≤ JS.MAX_SAFE_INTEGER →
  JS.Number (Some (JS.ToString (JS.Num (Z.of_nat i)))) = Some (JS.Num (Z.of_nat i)).
Proof.
  intros Hi. simpl. destruct (Z.of_nat i) as [|q|q] eqn:Hq; [done| |lia].
  unfold pretty, pretty_Z, pretty, pretty_positive, pretty, pretty_N.
  rewrite decide_False by done.
  destruct (pretty_go_digits (N.pos q) "") as (l & Hl & Hdig & Hval & Hne).
  simpl in Hl. rewrite app_nil_r in Hl.
  specialize (Hval 0). rewrite Z.mul_0_l, Z.add_0_l in Hval.
  change (Z.of_N (N.pos q)) with (Z.pos q) in Hval.
  assert (l ≠ []) as Hl0 by (by apply Hne).
  unfold JS.StringToNumber. rewrite Hl, (digits_ascii l Hdig), (trim_digits l Hdig).
  destruct l as [|a l]; [done|].
  rewrite (non_decimal_digits (a :: l) Hdig).
  pose proof Hdig as Hdig'. apply Forall_cons in Hdig' as [Ha _].
  destruct (digit_not_sign a Ha) as [Hm Hp].
  unfold JS.sign. rewrite (bool_decide_eq_false_2 (a = "-"%char)) by done.
  rewrite (bool_decide_eq_false_2 (a = "+"%char)) by done.
  rewrite bool_decide_eq_false_2.
  2:{ intros [= -> _]. by vm_compute in Ha. }
  rewrite (decimal_digits (a :: l) (Z.pos q) Hdig Hl0 Hval).
  unfold JS.integer_value, JS.within_safe. simpl.
  rewrite Z.mul_1_r.
  by rewrite bool_decide_eq_true_2.
Qed.

(** X8. A click on the dot createDots wrote for slide k shows slide k
    directly: Number reads back the index printed into data-slide, and the
    handler leaves the shown state of k, whatever slide was showing. *)
Theorem dot_click_shows_its_slide st (k : nat) :
  dots_created st → (k < length (slides st))%nat →
  maxSlide st ≤ JS.MAX_SAFE_INTEGER →
  dotClick (DotElement k) st
  = Some (Normal (shown (length (slides st)) (Z.of_nat k))).
Proof.
  intros Hc Hk Hmax. unfold dotClick.
  assert (dots st !! k
          = Some (Dot (Some (JS.ToString (JS.Num (Z.of_nat k))))
                      (default false (active <$> dots st !! k)))) as Hd.
  { pose proof (f_equal (.!! k) Hc) as H.
    rewrite !list_lookup_fmap, lookup_seq_lt in H by done.
    destruct (dots st !! k) as [[ds a]|]; [|done]. simpl in *. congruence. }
  rewrite Hd. cbn [data_slide].
  rewrite Number_ToString by (unfold maxSlide in Hmax; lia).
  unfold selectByIndicator. by rewrite goTo_shown.
Qed.

Lemma dot_click_shows_its_slide_witness :
  dots_created second_of_three ∧ (2 < length (slides second_of_three))%nat
  ∧ maxSlide second_of_three ≤ JS.MAX_SAFE_INTEGER
  ∧ dotClick (DotElement 2) second_of_three
    = Some (Normal (shown (length (slides second_of_three)) (Z.of_nat 2))).
Proof.
  assert (dots_created second_of_three) as H1 by reflexivity.
  assert (2 < length (slides second_of_three))%nat as H2 by (simpl; lia).
  assert (maxSlide second_of_three ≤ JS.MAX_SAFE_INTEGER) as H3
    by (unfold maxSlide, JS.MAX_SAFE_INTEGER; simpl; lia).
  split_and!; [exact H1|exact H2|exact H3|].
  exact (dot_click_shows_its_slide second_of_three 2 H1 H2 H3).
Defined.

End SliderMore.

(** * Further properties of the viewport observers *)

Section ViewportMore.
Import Viewport.
Local Open Scope list_scope.
Local Open Scope nat_scope.

Implicit Types (p q : page) (e t : elem) (o : observer) (c : op) (en : entry).

Lemma targets_arming_sections (l : list elem) o p :
  targets o (exec_all (hide_and_observe_sections l) p)
  = match o with
    | sectionObserver => targets o p ∪ list_to_set l
    | imgObserver => targets o p
    end.
Proof.
  revert p. induction l as [|s l IH]; intros p.
  - destruct o; simpl; set_solver.
  - unfold hide_and_observe_sections. rewrite bind_cons, exec_all_app.
    fold (hide_and_observe_sections l). rewrite IH.
    destruct o; simpl; set_solver.
Qed.

Lemma targets_arming_images (l : list elem) o p :
  targets o (exec_all (observe_images l) p)
  = match o with
    | sectionObserver => targets o p
    | imgObserver => targets o p ∪ list_to_set l
    end.
Proof.
  revert p. induction l as [|s l IH]; intros p.
  - destruct o; simpl; set_solver.
  - unfold observe_images. rewrite fmap_cons.
    change (exec_all (?c :: ?cs) p) with (exec_all cs (exec c p)).
    fold (observe_images l). rewrite IH.
    destruct o; simpl; set_solver.
Qed.

Lemma loaded_targets d (allSections imgTargets : list elem) o :
  targets o (loaded d allSections imgTargets)
  = list_to_set (armed o allSections imgTargets).
Proof.
  unfold loaded. rewrite exec_all_app, targets_arming_images,
    targets_arming_sections.
  destruct o; simpl; set_solver.
Qed.

(** What a [load] event's listeners do to the page. *)
Lemma blur_run_effect (k : nat) t p :
  targets sectionObserver (exec_all (replicate k (ClassRemove t "lazy-img")) p)
  = targets sectionObserver p
  ∧ targets imgObserver (exec_all (replicate k (ClassRemove t "lazy-img")) p)
    = targets imgObserver p
  ∧ (∀ o e, mutations o e (log (exec_all (replicate k (ClassRemove t "lazy-img")) p))
            = mutations o e (log p))
  ∧ ∀ e n', dom (exec_all (replicate k (ClassRemove t "lazy-img")) p) !! e = Some n' →
      ∃ n, dom p !! e = Some n
        ∧ src n' = src n ∧ dataset_src n' = dataset_src n
        ∧ listeners n' = listeners n
        ∧ ∀ cl : string, cl ≠ "lazy-img" → (cl ∈ classList n' ↔ cl ∈ classList n).
Proof.
  revert p. induction k as [|k IH]; intros p.
  - split_and!; try done. intros e n' Hn'. by exists n'.
  - change (exec_all (replicate (S k) (ClassRemove t "lazy-img")) p)
      with (exec_all (replicate k (ClassRemove t "lazy-img"))
              (exec (ClassRemove t "lazy-img") p)).
    destruct (IH (exec (ClassRemove t "lazy-img") p)) as (Hs & Hi & Hm & Hn).
    split_and!; [by rewrite Hs|by rewrite Hi| |].
    + intros o e. rewrite Hm. simpl.
      by rewrite mutations_app, mutations_one, blur_not_mutation, Nat.add_0_r.
    + intros e n' Hn'. destruct (Hn e n' Hn') as (n1 & Hn1 & -> & -> & -> & Hcl).
      simpl in Hn1. destruct (decide (t = e)) as [<-|Hne].
      * rewrite lookup_alter_eq in Hn1. apply fmap_Some in Hn1 as (n & Hn0 & ->).
        exists n. split_and!; try done. intros cl Hne. rewrite Hcl by done.
        simpl. set_solver.
      * rewrite lookup_alter_ne in Hn1 by done. by exists n1.
Qed.

(** The four shapes of a dispatched event. *)
Lemma handle_cases (ev : event) p q :
  enabled ev p → handle ev p = Some q → tame p →
  q = p
  ∨ (∃ en rest, isIntersecting en = true ∧ target en ∈ targets sectionObserver p
       ∧ deliver sectionObserver (en :: rest) p = Some q)
  ∨ (∃ en rest, isIntersecting en = true ∧ target en ∈ targets imgObserver p
       ∧ deliver imgObserver (en :: rest) p = Some q)
  ∨ (∃ e k, q = exec_all (replicate k (ClassRemove e "lazy-img")) p).
Proof.
  intros Hen Hh Ht. destruct ev as [o [|en rest]|e0]; simpl in *.
  - by destruct Hen.
  - destruct Hen as [_ Hall]. apply Forall_cons in Hall as [Hin _].
    destruct (isIntersecting en) eqn:Hi.
    + destruct o; [right; left|right; right; left]; by exists en, rest.
    + left. rewrite deliver_not_intersecting in Hh by done. by simplify_eq.
  - simplify_eq. destruct (dom p !! e0) as [n|] eqn:Hn.
    + right; right; right. exists e0, (length (listeners n)).
      by apply fire_load_blur.
    + left. unfold fire. by rewrite Hn.
Qed.

Lemma reach_snoc p (evs : list event) q (ev : event) r :
  reach p evs q → enabled ev q → handle ev q = Some r → reach p (evs ++ [ev]) r.
Proof.
  induction 1 as [p|p ev' p1 evs p2 Hen Hh _ IH]; intros Hen' Hh'.
  - eapply reach_cons; [done|done|constructor].
  - simpl. eapply reach_cons; [done|done|]. by apply IH.
Qed.

(** Induction over the pages the loaded page can reach. *)
Lemma reach_inv_ind (P : page → Prop) :
  (∀ ev p q, tame p → one_shot p → P p →
             enabled ev p → handle ev p = Some q → P q) →
  ∀ p0 (evs : list event) p,
    reach p0 evs p → tame p0 → one_shot p0 → P p0 → P p.
Proof.
  intros Hstep p0 evs p Hr.
  induction Hr as [p|p ev p1 evs p2 Hen Hh _ IH]; intros Ht Ho HP; [done|].
  destruct (handle_invariant ev p p1 Hen Hh Ht Ho) as (Ht1 & Ho1 & _).
  apply IH; [done|done|]. exact (Hstep ev p p1 Ht Ho HP Hen Hh).
Qed.

Lemma reach_loaded_ind d (allSections imgTargets : list elem) (P : page → Prop) :
  no_listeners d →
  P (loaded d allSections imgTargets) →
  (∀ ev p q, tame p → one_shot p → P p →
             enabled ev p → handle ev p = Some q → P q) →
  ∀ (evs : list event) p, reach (loaded d allSections imgTargets) evs p → P p.
Proof.
  intros Hd H0 Hstep evs p Hr.
  destruct (loaded_invariant d allSections imgTargets Hd) as [Ht0 Ho0].
  by eapply (reach_inv_ind P Hstep).
Qed.

(** X9. An element is watched exactly while it is pending: in every page
    reachable after the script ran, an observer's targets are the elements
    its arming loop handed it whose mutation has not been applied yet. *)
Theorem watched_iff_pending d (allSections imgTargets : list elem)
    (evs : list event) p o e :
  no_listeners d →
  reach (loaded d allSections imgTargets) evs p →
  (e ∈ targets o p
   ↔ e ∈ armed o allSections imgTargets ∧ mutations o e (log p) = 0).
Proof.
  intros Hd Hr. revert o e.
  apply (reach_loaded_ind d allSections imgTargets
           (λ p, ∀ o e, e ∈ targets o p
                        ↔ e ∈ armed o allSections imgTargets
                          ∧ mutations o e (log p) = 0) Hd) with (evs := evs);
    [| |done].
  - intros o e. rewrite loaded_targets, loaded_mutations, elem_of_list_to_set.
    naive_solver.
  - clear. intros ev p q Ht Ho IH Hen Hh o e.
    assert (∀ o0 en (rest : list entry),
              isIntersecting en = true → deliver o0 (en :: rest) p = Some q →
              e ∈ targets o q
              ↔ e ∈ armed o allSections imgTargets ∧ mutations o e (log q) = 0)
      as Hsettle.
    { intros o0 en rest Hi Hq.
      destruct (deliver_intersecting o0 en rest p Hi) as (q' & Hq' & Htg & _ & Hm).
      rewrite Hq in Hq'. injection Hq' as <-. rewrite Htg, Hm.
      pose proof (IH o e) as IHoe.
      case_decide as Ho'; case_bool_decide as Hb.
      - destruct Hb as [_ ->]. split; [set_solver|lia].
      - rewrite Nat.add_0_r, <- IHoe.
        assert (e ≠ target en) by naive_solver. set_solver.
      - naive_solver.
      - by rewrite Nat.add_0_r. }
    destruct (handle_cases ev p q Hen Hh Ht)
      as [->|[(en & rest & Hi & Hin & Hq)|[(en & rest & Hi & Hin & Hq)
         |(e0 & k & ->)]]]; [done|by eapply Hsettle|by eapply Hsettle|].
    destruct (blur_run_effect k e0 p) as (Hs & Hi & Hm & _).
    rewrite Hm, <- IH. by destruct o; rewrite ?Hs, ?Hi.
Qed.

Lemma watched_iff_pending_witness :
  no_listeners two_by_two
  ∧ reach (loaded two_by_two [0; 1] [2; 3])
          [Notification imgObserver [Entry 2 true]; LoadEvent 2] image_2_shown
  ∧ (2 ∈ targets imgObserver image_2_shown
     ↔ 2 ∈ armed imgObserver [0; 1] [2; 3]
       ∧ mutations imgObserver 2 (log image_2_shown) = 0).
Proof.
  assert (no_listeners two_by_two) as H1.
  { apply (bool_decide_unpack _). vm_compute. exact I. }
  assert (reach (loaded two_by_two [0; 1] [2; 3])
            [Notification imgObserver [Entry 2 true]; LoadEvent 2] image_2_shown)
    as H2.
  { apply (reach_cons _ _
             (exec_all [SrcFromDataset 2;
                        AddListener 2 "load" [ClassRemove 2 "lazy-img"];
                        Unobserve imgObserver 2]
                       two_by_two_loaded)).
    - split; [discriminate|]. repeat constructor; vm_compute; reflexivity.
    - reflexivity.
    - apply (reach_cons _ _ image_2_shown); [exact I|reflexivity|constructor]. }
  split_and!; [exact H1|exact H2|].
  exact (watched_iff_pending two_by_two [0; 1] [2; 3]
           [Notification imgObserver [Entry 2 true]; LoadEvent 2]
           image_2_shown imgObserver 2 H1 H2).
Defined.

Lemma deliver_section_lookup en (rest : list entry) p q e :
  isIntersecting en = true →
  deliver sectionObserver (en :: rest) p = Some q →
  dom q !! e
  = (if decide (target en = e)
     then λ n, Node (classList n ∖ {["section--hidden"]}) (src n)
                    (dataset_src n) (listeners n)
     else id) <$> dom p !! e.
Proof.
  intros Hi Hq. rewrite deliver_section in Hq by done. injection Hq as <-.
  simpl. case_decide as He.
  - subst e. by rewrite lookup_alter_eq.
  - rewrite lookup_alter_ne by done. by rewrite option_fmap_id.
Qed.

Lemma deliver_img_lookup en (rest : list entry) p q e :
  isIntersecting en = true →
  deliver imgObserver (en :: rest) p = Some q →
  dom q !! e
  = (if decide (target en = e)
     then λ n, Node (classList n)
                    (Some (default "undefined" (dataset_src n)))
                    (dataset_src n)
                    (listeners n ++ [("load", [ClassRemove e "lazy-img"])])
     else id) <$> dom p !! e.
Proof.
  intros Hi Hq. rewrite deliver_img in Hq by done. injection Hq as <-.
  simpl. case_decide as He.
  - subst e. rewrite !lookup_alter_eq. by destruct (dom p !! target en).
  - rewrite !lookup_alter_ne by done. by rewrite option_fmap_id.
Qed.

Lemma deliver_mutations o0 en (rest : list entry) p q o e :
  isIntersecting en = true → deliver o0 (en :: rest) p = Some q →
  mutations o e (log q)
  = mutations o e (log p)
    + (if bool_decide (o = o0 ∧ e = target en) then 1 else 0).
Proof.
  intros Hi Hq.
  destruct (deliver_intersecting o0 en rest p Hi) as (q' & Hq' & _ & _ & Hm).
  rewrite Hq in Hq'. injection Hq' as <-. apply Hm.
Qed.

(** Arming calls touch neither [src], [data-src] nor listeners. *)
Lemma exec_all_arming_node (cs : list op) p e n' :
  Forall arming cs → dom (exec_all cs p) !! e = Some n' →
  ∃ n, dom p !! e = Some n ∧ src n' = src n
    ∧ dataset_src n' = dataset_src n ∧ listeners n' = listeners n.
Proof.
  intros Hcs. revert p. induction Hcs as [|c cs Hc _ IH]; intros p Hp.
  - by exists n'.
  - destruct (IH (exec c p) Hp) as (n1 & Hn1 & -> & -> & ->).
    destruct c as [e' cl'| | | |[] e'|[] e']; simpl in *; try done;
      try (by exists n1).
    destruct (decide (e' = e)) as [->|Hne].
    + rewrite lookup_alter_eq in Hn1. apply fmap_Some in Hn1 as (n & Hn & ->).
      by exists n.
    + rewrite lookup_alter_ne in Hn1 by done. by exists n1.
Qed.

(** X10. loadImg never stacks listeners: in every page reachable after the
    script ran, an image carries as many load listeners as src assignments
    were made on it, which is none or one. *)
Theorem one_load_listener d (allSections imgTargets : list elem)
    (evs : list event) p e n :
  no_listeners d →
  reach (loaded d allSections imgTargets) evs p →
  dom p !! e = Some n →
  length (listeners n) = mutations imgObserver e (log p)
  ∧ length (listeners n) ≤ 1.
Proof.
  intros Hd Hr Hn.
  assert (length (listeners n) = mutations imgObserver e (log p)) as Hlen.
  { revert n Hn.
    apply (reach_loaded_ind d allSections imgTargets
             (λ p, ∀ n, dom p !! e = Some n →
                        length (listeners n) = mutations imgObserver e (log p))
             Hd) with (evs := evs); [| |done].
    - intros n Hn. rewrite loaded_mutations. unfold loaded in Hn.
      apply exec_all_arming_node in Hn as (n0 & Hn0 & _ & _ & ->);
        [|apply arming_loops].
      by rewrite (Hd e n0 Hn0).
    - clear. intros ev p q Ht Ho IH Hen Hh n' Hn'.
      destruct (handle_cases ev p q Hen Hh Ht)
        as [->|[(en & rest & Hi & Hin & Hq)|[(en & rest & Hi & Hin & Hq)
           |(e0 & k & ->)]]]; [by apply IH|..].
      + rewrite (deliver_section_lookup en rest p q e Hi Hq) in Hn'.
        rewrite (deliver_mutations _ _ _ _ _ _ e Hi Hq).
        rewrite bool_decide_eq_false_2 by naive_solver. rewrite Nat.add_0_r.
        apply fmap_Some in Hn' as (n & Hn & ->). rewrite <- (IH n Hn).
        by case_decide.
      + rewrite (deliver_img_lookup en rest p q e Hi Hq) in Hn'.
        rewrite (deliver_mutations _ _ _ _ _ _ e Hi Hq).
        apply fmap_Some in Hn' as (n & Hn & ->). rewrite <- (IH n Hn).
        case_decide as He.
        * rewrite bool_decide_eq_true_2 by done. simpl. rewrite length_app.
          simpl. lia.
        * rewrite bool_decide_eq_false_2 by naive_solver. simpl. lia.
      + destruct (blur_run_effect k e0 p) as (_ & _ & Hm & Hnode).
        destruct (Hnode e n' Hn') as (n & Hn & _ & _ & -> & _).
        rewrite Hm. by apply IH. }
  split; [done|]. rewrite Hlen.
  destruct (loaded_invariant d allSections imgTargets Hd) as [Ht0 Ho0].
  destruct (reach_invariant _ _ _ Hr Ht0 Ho0) as (_ & Ho & _).
  apply Ho.
Qed.

Lemma one_load_listener_witness :
  no_listeners two_by_two
  ∧ reach (loaded two_by_two [0; 1] [2; 3])
          [Notification imgObserver [Entry 2 true]; LoadEvent 2] image_2_shown
  ∧ dom image_2_shown !! 2
    = Some (Node ∅ (Some "img/digital.jpg") (Some "img/digital.jpg")
                 [("load", [ClassRemove 2 "lazy-img"])])
  ∧ length (listeners (Node ∅ (Some "img/digital.jpg") (Some "img/digital.jpg")
                            [("load", [ClassRemove 2 "lazy-img"])]))
    = mutations imgObserver 2 (log image_2_shown)
  ∧ length (listeners (Node ∅ (Some "img/digital.jpg") (Some "img/digital.jpg")
                            [("load", [ClassRemove 2 "lazy-img"])])) ≤ 1.
Proof.
  assert (no_listeners two_by_two) as H1.
  { apply (bool_decide_unpack _). vm_compute. exact I. }
  assert (reach (loaded two_by_two [0; 1] [2; 3])
            [Notification imgObserver [Entry 2 true]; LoadEvent 2] image_2_shown)
    as H2.
  { apply (reach_cons _ _
             (exec_all [SrcFromDataset 2;
                        AddListener 2 "load" [ClassRemove 2 "lazy-img"];
                        Unobserve imgObserver 2]
                       two_by_two_loaded)).
    - split; [discriminate|]. repeat constructor; vm_compute; reflexivity.
    - reflexivity.
    - apply (reach_cons _ _ image_2_shown); [exact I|reflexivity|constructor]. }
  assert (dom image_2_shown !! 2
          = Some (Node ∅ (Some "img/digital.jpg") (Some "img/digital.jpg")
                       [("load", [ClassRemove 2 "lazy-img"])])) as H3
    by (vm_compute; reflexivity).
  split_and!; [exact H1|exact H2|exact H3|..];
    apply (one_load_listener two_by_two [0; 1] [2; 3]
             [Notification imgObserver [Entry 2 true]; LoadEvent 2]
             image_2_shown 2 _ H1 H2 H3).
Defined.

(** X11. A section is hidden exactly while it has not been revealed: for
    every section of the document the arming loop went over, in every page
    reachable after the script ran, the section carries section--hidden if
    and only if revealSection has not removed it; nothing puts it back. *)
Theorem hidden_iff_not_revealed d (allSections imgTargets : list elem)
    (evs : list event) p s :
  no_listeners d → s ∈ allSections → is_Some (d !! s) →
  reach (loaded d allSections imgTargets) evs p →
  (has_class "section--hidden" s p
   ↔ mutations sectionObserver s (log p) = 0).
Proof.
  intros Hd Hs Hds Hr.
  apply (reach_loaded_ind d allSections imgTargets
           (λ p, has_class "section--hidden" s p
                 ↔ mutations sectionObserver s (log p) = 0) Hd)
    with (evs := evs); [| |done].
  - rewrite loaded_mutations.
    by destruct (loaded_sections d allSections imgTargets s Hs Hds).
  - clear. intros ev p q Ht Ho IH Hen Hh.
    destruct (handle_cases ev p q Hen Hh Ht)
      as [->|[(en & rest & Hi & Hin & Hq)|[(en & rest & Hi & Hin & Hq)
         |(e0 & k & ->)]]]; [done|..].
    + rewrite (deliver_mutations _ _ _ _ _ _ s Hi Hq). unfold has_class.
      rewrite (deliver_section_lookup en rest p q s Hi Hq).
      case_decide as He.
      * rewrite bool_decide_eq_true_2 by done. split; [|lia].
        intros (n' & (n & _ & ->)%fmap_Some & Hcl). simpl in Hcl. set_solver.
      * rewrite bool_decide_eq_false_2 by naive_solver.
        by rewrite option_fmap_id, Nat.add_0_r.
    + rewrite (deliver_mutations _ _ _ _ _ _ s Hi Hq).
      rewrite bool_decide_eq_false_2 by naive_solver. rewrite Nat.add_0_r, <- IH.
      unfold has_class. rewrite (deliver_img_lookup en rest p q s Hi Hq).
      case_decide; [|by rewrite option_fmap_id]. split.
      * intros (n' & (n & Hn & ->)%fmap_Some & Hcl). by exists n.
      * intros (n & Hn & Hcl). eexists. rewrite Hn. by split.
    + destruct (blur_run_effect k e0 p) as (_ & _ & Hm & Hnode).
      rewrite Hm, <- IH. split.
      * intros (n' & Hn' & Hcl).
        destruct (Hnode s n' Hn') as (n & Hn & _ & _ & _ & Hiff).
        exists n. split; [done|]. by apply Hiff.
      * intros (n & Hn & Hcl).
        destruct (exec_all_dom_is_Some (replicate k (ClassRemove e0 "lazy-img"))
                    p s) as [n' Hn']; [by exists n|].
        destruct (Hnode s n' Hn') as (n1 & Hn1 & _ & _ & _ & Hiff).
        exists n'. split; [done|]. apply Hiff; [done|]. congruence.
Qed.

Lemma hidden_iff_not_revealed_witness :
  no_listeners two_by_two ∧ 1 ∈ [0; 1] ∧ is_Some (two_by_two !! 1)
  ∧ reach (loaded two_by_two [0; 1] [2; 3])
          [Notification imgObserver [Entry 2 true]; LoadEvent 2] image_2_shown
  ∧ (has_class "section--hidden" 1 image_2_shown
     ↔ mutations sectionObserver 1 (log image_2_shown) = 0).
Proof.
  assert (no_listeners two_by_two) as H1.
  { apply (bool_decide_unpack _). vm_compute. exact I. }
  assert (reach (loaded two_by_two [0; 1] [2; 3])
            [Notification imgObserver [Entry 2 true]; LoadEvent 2] image_2_shown)
    as H2.
  { apply (reach_cons _ _
             (exec_all [SrcFromDataset 2;
                        AddListener 2 "load" [ClassRemove 2 "lazy-img"];
                        Unobserve imgObserver 2]
                       two_by_two_loaded)).
    - split; [discriminate|]. repeat constructor; vm_compute; reflexivity.
    - reflexivity.
    - apply (reach_cons _ _ image_2_shown); [exact I|reflexivity|constructor]. }
  assert (1 ∈ [0; 1]) as H3 by (apply (bool_decide_unpack _); vm_compute; exact I).
  assert (is_Some (two_by_two !! 1)) as H4 by (eexists; vm_compute; reflexivity).
  split_and!; [exact H1|exact H3|exact H4|exact H2|].
  exact (hidden_iff_not_revealed two_by_two [0; 1] [2; 3]
           [Notification imgObserver [Entry 2 true]; LoadEvent 2]
           image_2_shown 1 H1 H3 H4 H2).
Defined.

(** X12. An image shows its placeholder until loadImg settles it and its
    deferred source from then on: in every page reachable after the script
    ran, data-src is what the document had, and src is the document's src
    while no assignment was made and the value of data-src afterwards. *)
Theorem image_src_follows_settle d (allSections imgTargets : list elem)
    (evs : list event) p e n0 n :
  no_listeners d →
  reach (loaded d allSections imgTargets) evs p →
  d !! e = Some n0 → dom p !! e = Some n →
  dataset_src n = dataset_src n0
  ∧ src n = match mutations imgObserver e (log p) with
            | 0 => src n0
            | S _ => Some (default "undefined" (dataset_src n0))
            end.
Proof.
  intros Hd Hr Hn0. revert n.
  apply (reach_loaded_ind d allSections imgTargets
           (λ p, ∀ n, dom p !! e = Some n →
                      dataset_src n = dataset_src n0
                      ∧ src n = match mutations imgObserver e (log p) with
                                | 0 => src n0
                                | S _ => Some (default "undefined" (dataset_src n0))
                                end)
           Hd) with (evs := evs); [| |done].
  - intros n Hn. rewrite loaded_mutations. unfold loaded in Hn.
    apply exec_all_arming_node in Hn as (n1 & Hn1 & -> & -> & _);
      [|apply arming_loops].
    simpl in Hn1. rewrite Hn0 in Hn1. by injection Hn1 as <-.
  - clear. intros ev p q Ht Ho IH Hen Hh n' Hn'.
    destruct (handle_cases ev p q Hen Hh Ht)
      as [->|[(en & rest & Hi & Hin & Hq)|[(en & rest & Hi & Hin & Hq)
         |(e0 & k & ->)]]]; [by apply IH|..].
    + rewrite (deliver_section_lookup en rest p q e Hi Hq) in Hn'.
      rewrite (deliver_mutations _ _ _ _ _ _ e Hi Hq).
      rewrite bool_decide_eq_false_2 by naive_solver. rewrite Nat.add_0_r.
      apply fmap_Some in Hn' as (n & Hn & ->).
      destruct (IH n Hn) as [? ?]. by case_decide.
    + rewrite (deliver_img_lookup en rest p q e Hi Hq) in Hn'.
      rewrite (deliver_mutations _ _ _ _ _ _ e Hi Hq).
      apply fmap_Some in Hn' as (n & Hn & ->).
      destruct (IH n Hn) as [Hds Hsrc]. case_decide as He.
      * rewrite bool_decide_eq_true_2 by done. simpl. split; [done|].
        rewrite Nat.add_1_r. by rewrite Hds.
      * rewrite bool_decide_eq_false_2 by naive_solver. simpl.
        by rewrite Nat.add_0_r.
    + destruct (blur_run_effect k e0 p) as (_ & _ & Hm & Hnode).
      destruct (Hnode e n' Hn') as (n & Hn & -> & -> & _ & _).
      rewrite Hm. by apply IH.
Qed.

Lemma image_src_follows_settle_witness :
  no_listeners two_by_two
  ∧ reach (loaded two_by_two [0; 1] [2; 3])
          [Notification imgObserver [Entry 2 true]; LoadEvent 2] image_2_shown
  ∧ two_by_two !! 2
    = Some (Node {["lazy-img"]} (Some "img/digital-lazy.jpg")
                 (Some "img/digital.jpg") [])
  ∧ dom image_2_shown !! 2
    = Some (Node ∅ (Some "img/digital.jpg") (Some "img/digital.jpg")
                 [("load", [ClassRemove 2 "lazy-img"])])
  ∧ dataset_src (Node ∅ (Some "img/digital.jpg") (Some "img/digital.jpg")
                      [("load", [ClassRemove 2 "lazy-img"])])
    = dataset_src (Node {["lazy-img"]} (Some "img/digital-lazy.jpg")
                        (Some "img/digital.jpg") [])
  ∧ src (Node ∅ (Some "img/digital.jpg") (Some "img/digital.jpg")
              [("load", [ClassRemove 2 "lazy-img"])])
    = match mutations imgObserver 2 (log image_2_shown) with
      | 0 => src (Node {["lazy-img"]} (Some "img/digital-lazy.jpg")
                       (Some "img/digital.jpg") [])
      | S _ => Some (default "undefined"
                       (dataset_src (Node {["lazy-img"]}
                                          (Some "img/digital-lazy.jpg")
                                          (Some "img/digital.jpg") [])))
      end.
Proof.
  assert (no_listeners two_by_two) as H1.
  { apply (bool_decide_unpack _). vm_compute. exact I. }
  assert (reach (loaded two_by_two [0; 1] [2; 3])
            [Notification imgObserver [Entry 2 true]; LoadEvent 2] image_2_shown)
    as H2.
  { apply (reach_cons _ _
             (exec_all [SrcFromDataset 2;
                        AddListener 2 "load" [ClassRemove 2 "lazy-img"];
                        Unobserve imgObserver 2]
                       two_by_two_loaded)).
    - split; [discriminate|]. repeat constructor; vm_compute; reflexivity.
    - reflexivity.
    - apply (reach_cons _ _ image_2_shown); [exact I|reflexivity|constructor]. }
  assert (two_by_two !! 2
          = Some (Node {["lazy-img"]} (Some "img/digital-lazy.jpg")
                       (Some "img/digital.jpg") [])) as H3
    by (vm_compute; reflexivity).
  assert (dom image_2_shown !! 2
          = Some (Node ∅ (Some "img/digital.jpg") (Some "img/digital.jpg")
                       [("load", [ClassRemove 2 "lazy-img"])])) as H4
    by (vm_compute; reflexivity).
  split_and!; [exact H1|exact H2|exact H3|exact H4|..];
    apply (image_src_follows_settle two_by_two [0; 1] [2; 3]
             [Notification imgObserver [Entry 2 true]; LoadEvent 2]
             image_2_shown 2 _ _ H1 H2 H3 H4).
Defined.

(** X19. What one callback invocation does, in any page reachable after the
    script ran: when the leading entry of the batch reports its element
    intersecting, the mutation, not applied to that element before, is
    applied to it once and the element is unobserved; when it does not, the
    page stays as it is; the mutation count of every other element is
    unchanged; and over any further sequence of events no element is mutated
    a second time and no unobserved element is observed again. *)
Theorem settle_once d (allSections imgTargets : list elem)
    (evs : list event) p o en (rest : list entry) :
  no_listeners d →
  reach (loaded d allSections imgTargets) evs p →
  deliverable o (en :: rest) p →
  ∃ q, deliver o (en :: rest) p = Some q
    ∧ (isIntersecting en = false → q = p)
    ∧ (isIntersecting en = true →
         mutations o (target en) (log p) = 0
         ∧ mutations o (target en) (log q) = 1
         ∧ target en ∉ targets o q)
    ∧ (∀ e, e ≠ target en → mutations o e (log q) = mutations o e (log p))
    ∧ ∀ (evs' : list event) q', reach q evs' q' →
        (∀ e, mutations o e (log q') ≤ 1)
        ∧ (∀ e, e ∉ targets o q → e ∉ targets o q')
        ∧ (isIntersecting en = true → mutations o (target en) (log q') = 1).
Proof.
  intros Hd Hreach Hdel.
  destruct (loaded_invariant d allSections imgTargets Hd) as [Ht0 Ho0].
  destruct (reach_invariant _ _ _ Hreach Ht0 Ho0) as (Ht & Ho & _).
  assert (target en ∈ targets o p) as Hin.
  { destruct Hdel as [_ Hall]. by apply Forall_cons in Hall as [? _]. }
  assert (∃ q, deliver o (en :: rest) p = Some q) as [q Hq].
  { destruct (isIntersecting en) eqn:Hi.
    - destruct (deliver_intersecting o en rest p Hi) as (q & ? & _). by exists q.
    - exists p. by apply deliver_not_intersecting. }
  destruct (handle_invariant (Notification o (en :: rest)) p q Hdel Hq Ht Ho)
    as (Htq & Hoq & _).
  exists q. split; [done|].
  assert (isIntersecting en = true →
          mutations o (target en) (log p) = 0
          ∧ mutations o (target en) (log q) = 1
          ∧ target en ∉ targets o q) as Hsettle.
  { intros Hi. destruct (deliver_intersecting o en rest p Hi) as (q1 & Hq1 & Htg & _ & Hm).
    rewrite Hq in Hq1. injection Hq1 as <-.
    specialize (Htg o). rewrite decide_True in Htg by done.
    destruct (Ho o (target en)) as [Hle Hout].
    assert (mutations o (target en) (log p) = 0) as H0.
    { destruct (decide (1 ≤ mutations o (target en) (log p))); [|lia].
      by destruct Hout. }
    split_and!; [done| |].
    - rewrite Hm, H0, bool_decide_eq_true_2 by done. done.
    - rewrite Htg. set_solver. }
  split_and!; [|done| |].
  - intros Hi. rewrite deliver_not_intersecting in Hq by done. by injection Hq.
  - intros e He. destruct (isIntersecting en) eqn:Hi.
    + destruct (deliver_intersecting o en rest p Hi) as (q1 & Hq1 & _ & _ & Hm).
      rewrite Hq in Hq1. injection Hq1 as <-.
      rewrite Hm, bool_decide_eq_false_2 by naive_solver. lia.
    + rewrite deliver_not_intersecting in Hq by done. by injection Hq as <-.
  - intros evs' q' Hr'.
    destruct (reach_invariant _ _ _ Hr' Htq Hoq) as (_ & Hoq' & Hsub).
    split_and!.
    + intros e. apply Hoq'.
    + intros e He Hin'. apply He. by apply (Hsub o).
    + intros Hi. destruct (Hsettle Hi) as (_ & H1 & _).
      pose proof (reach_mutations_mono _ _ _ o (target en) Hr').
      destruct (Hoq' o (target en)). lia.
Qed.

Lemma settle_once_witness :
  no_listeners two_by_two
  ∧ reach (loaded two_by_two [0; 1] [2; 3]) [] two_by_two_loaded
  ∧ deliverable sectionObserver (Entry 0 true :: [Entry 1 false]) two_by_two_loaded
  ∧ ∃ q, deliver sectionObserver (Entry 0 true :: [Entry 1 false]) two_by_two_loaded
         = Some q
      ∧ (isIntersecting (Entry 0 true) = false → q = two_by_two_loaded)
      ∧ (isIntersecting (Entry 0 true) = true →
           mutations sectionObserver (target (Entry 0 true)) (log two_by_two_loaded) = 0
           ∧ mutations sectionObserver (target (Entry 0 true)) (log q) = 1
           ∧ target (Entry 0 true) ∉ targets sectionObserver q)
      ∧ (∀ e, e ≠ target (Entry 0 true) →
              mutations sectionObserver e (log q)
              = mutations sectionObserver e (log two_by_two_loaded))
      ∧ ∀ (evs' : list event) q', reach q evs' q' →
          (∀ e, mutations sectionObserver e (log q') ≤ 1)
          ∧ (∀ e, e ∉ targets sectionObserver q → e ∉ targets sectionObserver q')
          ∧ (isIntersecting (Entry 0 true) = true →
             mutations sectionObserver (target (Entry 0 true)) (log q') = 1).
Proof.
  assert (no_listeners two_by_two) as H1.
  { apply (bool_decide_unpack _). vm_compute. exact I. }
  assert (reach (loaded two_by_two [0; 1] [2; 3]) [] two_by_two_loaded) as H2
    by constructor.
  assert (deliverable sectionObserver (Entry 0 true :: [Entry 1 false])
            two_by_two_loaded) as H3.
  { split; [discriminate|]. repeat constructor; vm_compute; reflexivity. }
  split_and!; [exact H1|exact H2|exact H3|].
  exact (settle_once two_by_two [0; 1] [2; 3] [] two_by_two_loaded
           sectionObserver (Entry 0 true) [Entry 1 false] H1 H2 H3).
Defined.

(** X20. The section observer from arming to reveal.  The script leaves
    every section of the document hidden and watched, no reveal applied; the
    observer has threshold 0.15 and the default margin 0px.  For a watched
    section whose entry leads a batch: reported at 10% visibility, or at any
    fraction below 15%, the page stays as it is; reported at 15% or more,
    the hidden class is removed from it and nothing else of its node
    changes, it is unobserved, and whatever events follow it is never
    watched again and its reveal count stays 1. *)
Theorem section_reveal_instance d (allSections imgTargets : list elem) s
    (evs : list event) p n (low high : Q) (rest : list entry) :
  no_listeners d → s ∈ allSections → is_Some (d !! s) →
  reach (loaded d allSections imgTargets) evs p →
  s ∈ targets sectionObserver p → dom p !! s = Some n →
  Forall (λ en, target en ∈ targets sectionObserver p) rest →
  (low < 15 # 100)%Q → (15 # 100 <= high)%Q →
  (s ∈ targets sectionObserver (loaded d allSections imgTargets)
   ∧ has_class "section--hidden" s (loaded d allSections imgTargets)
   ∧ mutations sectionObserver s (log (loaded d allSections imgTargets)) = 0)
  ∧ threshold (observer_options sectionObserver) = (15 # 100)%Q
  ∧ effective_rootMargin (observer_options sectionObserver) = "0px"
  ∧ deliver sectionObserver ((report sectionObserver s (10 # 100)) :: rest) p
    = Some p
  ∧ deliver sectionObserver ((report sectionObserver s low) :: rest) p = Some p
  ∧ ∃ q, deliver sectionObserver ((report sectionObserver s high) :: rest) p
         = Some q
      ∧ dom q !! s
        = Some (Node (classList n ∖ {["section--hidden"]}) (src n)
                     (dataset_src n) (listeners n))
      ∧ (s ∉ targets sectionObserver q)
      ∧ mutations sectionObserver s (log q) = 1
      ∧ ∀ (evs' : list event) q', reach q evs' q' →
          (s ∉ targets sectionObserver q')
          ∧ mutations sectionObserver s (log q') = 1.
Proof.
  intros Hd Hs Hds Hreach Hin Hn Hrest Hlow Hhigh.
  destruct (loaded_invariant d allSections imgTargets Hd) as [Ht0 Ho0].
  destruct (reach_invariant _ _ _ Hreach Ht0 Ho0) as (Ht & Ho & _).
  destruct (loaded_sections d allSections imgTargets s Hs Hds) as [Hobs Hhid].
  split_and!; [exact Hobs|exact Hhid|apply loaded_mutations|done|done|..].
  - by apply deliver_not_intersecting, report_below.
  - by apply deliver_not_intersecting, report_below.
  - pose proof (report_reached sectionObserver s high Hhigh) as Hi.
    set (en := report sectionObserver s high) in *.
    assert (deliverable sectionObserver (en :: rest) p) as Hdel.
    { split; [done|]. by apply Forall_cons. }
    pose proof (deliver_section en rest p Hi) as Hq.
    destruct (handle_invariant (Notification sectionObserver (en :: rest)) p _
                Hdel Hq Ht Ho) as (Htq & Hoq & _).
    destruct (Ho sectionObserver s) as [Hle Hout].
    assert (mutations sectionObserver s (log p) = 0) as H0.
    { destruct (decide (1 ≤ mutations sectionObserver s (log p))); [|lia].
      by destruct Hout. }
    eexists. split; [exact Hq|].
    assert (mutations sectionObserver s
              ((log p ++ [ClassRemove s "section--hidden"])
                 ++ [Unobserve sectionObserver s]) = 1) as H1.
    { rewrite !mutations_app, !mutations_one, H0. simpl.
      by rewrite bool_decide_eq_true_2. }
    simpl. split_and!.
    + by rewrite lookup_alter_eq, Hn.
    + set_solver.
    + exact H1.
    + intros evs' q' Hr'.
      destruct (reach_invariant _ _ _ Hr' Htq Hoq) as (_ & Hoq' & Hsub).
      pose proof (reach_mutations_mono _ _ _ sectionObserver s Hr') as Hmono.
      simpl in Hmono. rewrite H1 in Hmono.
      destruct (Hoq' sectionObserver s) as [Hle' Hout'].
      split; [apply Hout'; lia|lia].
Qed.

Lemma section_reveal_instance_witness :
  no_listeners two_by_two ∧ 1 ∈ [0; 1] ∧ is_Some (two_by_two !! 1)
  ∧ reach (loaded two_by_two [0; 1] [2; 3]) [] two_by_two_loaded
  ∧ 1 ∈ targets sectionObserver two_by_two_loaded
  ∧ dom two_by_two_loaded !! 1 = Some (Node {["section--hidden"]} None None [])
  ∧ Forall (λ en, target en ∈ targets sectionObserver two_by_two_loaded)
           [Entry 0 false]
  ∧ (14 # 100 < 15 # 100)%Q ∧ (15 # 100 <= 20 # 100)%Q
  ∧ (1 ∈ targets sectionObserver (loaded two_by_two [0; 1] [2; 3])
     ∧ has_class "section--hidden" 1 (loaded two_by_two [0; 1] [2; 3])
     ∧ mutations sectionObserver 1 (log (loaded two_by_two [0; 1] [2; 3])) = 0)
  ∧ threshold (observer_options sectionObserver) = (15 # 100)%Q
  ∧ effective_rootMargin (observer_options sectionObserver) = "0px"
  ∧ deliver sectionObserver
      ((report sectionObserver 1 (10 # 100)) :: [Entry 0 false]) two_by_two_loaded
    = Some two_by_two_loaded
  ∧ deliver sectionObserver
      ((report sectionObserver 1 (14 # 100)) :: [Entry 0 false]) two_by_two_loaded
    = Some two_by_two_loaded
  ∧ ∃ q, deliver sectionObserver
           ((report sectionObserver 1 (20 # 100)) :: [Entry 0 false])
           two_by_two_loaded
         = Some q
      ∧ dom q !! 1
        = Some (Node (classList (Node {["section--hidden"]} None None [])
                        ∖ {["section--hidden"]})
                     (src (Node {["section--hidden"]} None None []))
                     (dataset_src (Node {["section--hidden"]} None None []))
                     (listeners (Node {["section--hidden"]} None None [])))
      ∧ (1 ∉ targets sectionObserver q)
      ∧ mutations sectionObserver 1 (log q) = 1
      ∧ ∀ (evs' : list event) q', reach q evs' q' →
          (1 ∉ targets sectionObserver q')
          ∧ mutations sectionObserver 1 (log q') = 1.
Proof.
  assert (no_listeners two_by_two) as H1.
  { apply (bool_decide_unpack _). vm_compute. exact I. }
  assert (1 ∈ [0; 1]) as H2 by (apply (bool_decide_unpack _); vm_compute; exact I).
  assert (is_Some (two_by_two !! 1)) as H3 by (eexists; vm_compute; reflexivity).
  assert (reach (loaded two_by_two [0; 1] [2; 3]) [] two_by_two_loaded) as H4
    by constructor.
  assert (1 ∈ targets sectionObserver two_by_two_loaded) as H5
    by (vm_compute; reflexivity).
  assert (dom two_by_two_loaded !! 1
          = Some (Node {["section--hidden"]} None None [])) as H6
    by (vm_compute; reflexivity).
  assert (Forall (λ en, target en ∈ targets sectionObserver two_by_two_loaded)
                 [Entry 0 false]) as H7
    by (repeat constructor; vm_compute; reflexivity).
  assert (14 # 100 < 15 # 100)%Q as H8 by reflexivity.
  assert (15 # 100 <= 20 # 100)%Q as H9 by discriminate.
  split_and!; [exact H1|exact H2|exact H3|exact H4|exact H5|exact H6|exact H7
              |exact H8|exact H9|..];
    apply (section_reveal_instance two_by_two [0; 1] [2; 3] 1 [] two_by_two_loaded
             (Node {["section--hidden"]} None None []) (14 # 100) (20 # 100)
             [Entry 0 false] H1 H2 H3 H4 H5 H6 H7 H8 H9).
Defined.

(** X21. What [loadImg] does to the image of a leading intersecting entry,
    in any page reachable after the script ran: its src becomes the text of
    its data-src, a load listener is added after the ones it has, its
    classes (the blur class included) and its data-src stay, and it is
    unobserved; a load event fired on it next leaves it without the blur
    class.  The observer has threshold 0 and the margin 200px. *)
Theorem loadImg_settles_leading_image d (allSections imgTargets : list elem)
    (evs : list event) p en (rest : list entry) n :
  no_listeners d →
  reach (loaded d allSections imgTargets) evs p →
  isIntersecting en = true → dom p !! target en = Some n →
  threshold (observer_options imgObserver) = 0%Q
  ∧ rootMargin (observer_options imgObserver) = Some "200px"
  ∧ ∃ q, deliver imgObserver (en :: rest) p = Some q
      ∧ dom q !! target en
        = Some (Node (classList n)
                     (Some (default "undefined" (dataset_src n)))
                     (dataset_src n)
                     (listeners n
                        ++ [("load", [ClassRemove (target en) "lazy-img"])]))
      ∧ (target en ∉ targets imgObserver q)
      ∧ ¬ has_class "lazy-img" (target en) (fire (target en) "load" q).
Proof.
  intros Hd Hreach Hi Hn.
  destruct (loaded_invariant d allSections imgTargets Hd) as [Ht0 Ho0].
  split_and!; [done|done|].
  eexists. split; [by apply deliver_img|]. simpl. split_and!.
  - by rewrite !lookup_alter_eq, Hn.
  - set_solver.
  - destruct (reach_invariant _ _ _ Hreach Ht0 Ho0) as (Ht & _ & _).
    pose proof (deliver_img en rest p Hi) as Hq.
    pose proof (deliver_tame _ _ _ _ Hq Ht) as Htq.
    erewrite (fire_load_blur (target en) _ _ Htq);
      [|simpl; by rewrite !lookup_alter_eq, Hn].
    simpl. rewrite length_app, Nat.add_comm. apply exec_all_remove_gone.
Qed.

Lemma loadImg_settles_leading_image_witness :
  no_listeners two_by_two
  ∧ reach (loaded two_by_two [0; 1] [2; 3]) [] two_by_two_loaded
  ∧ isIntersecting (Entry 3 true) = true
  ∧ dom two_by_two_loaded !! target (Entry 3 true)
    = Some (Node {["lazy-img"]} (Some "img/grow-lazy.jpg") (Some "img/grow.jpg") [])
  ∧ threshold (observer_options imgObserver) = 0%Q
  ∧ rootMargin (observer_options imgObserver) = Some "200px"
  ∧ ∃ q, deliver imgObserver (Entry 3 true :: []) two_by_two_loaded = Some q
      ∧ dom q !! target (Entry 3 true)
        = Some (Node
                  (classList (Node {["lazy-img"]} (Some "img/grow-lazy.jpg")
                                   (Some "img/grow.jpg") []))
                  (Some (default "undefined"
                           (dataset_src (Node {["lazy-img"]}
                                              (Some "img/grow-lazy.jpg")
                                              (Some "img/grow.jpg") []))))
                  (dataset_src (Node {["lazy-img"]} (Some "img/grow-lazy.jpg")
                                     (Some "img/grow.jpg") []))
                  (listeners (Node {["lazy-img"]} (Some "img/grow-lazy.jpg")
                                   (Some "img/grow.jpg") [])
                     ++ [("load", [ClassRemove (target (Entry 3 true)) "lazy-img"])]))
      ∧ (target (Entry 3 true) ∉ targets imgObserver q)
      ∧ ¬ has_class "lazy-img" (target (Entry 3 true))
            (fire (target (Entry 3 true)) "load" q).
Proof.
  assert (no_listeners two_by_two) as H1.
  { apply (bool_decide_unpack _). vm_compute. exact I. }
  assert (reach (loaded two_by_two [0; 1] [2; 3]) [] two_by_two_loaded) as H2
    by constructor.
  assert (isIntersecting (Entry 3 true) = true) as H3 by reflexivity.
  assert (dom two_by_two_loaded !! target (Entry 3 true)
          = Some (Node {["lazy-img"]} (Some "img/grow-lazy.jpg")
                       (Some "img/grow.jpg") [])) as H4
    by (vm_compute; reflexivity).
  split_and!; [exact H1|exact H2|exact H3|exact H4|..];
    apply (loadImg_settles_leading_image two_by_two [0; 1] [2; 3] []
             two_by_two_loaded (Entry 3 true) []
             (Node {["lazy-img"]} (Some "img/grow-lazy.jpg") (Some "img/grow.jpg") [])
             H1 H2 H3 H4).
Defined.

(** X22. The blur class goes in a load event and never before the src
    assignment: in any run from the page the script left, an element that
    had the class lazy-img and has lost it received a load event at a point
    of the run where loadImg had assigned its src (once). *)
Theorem blur_leaves_on_load d (allSections imgTargets : list elem)
    (evs : list event) p e :
  no_listeners d →
  reach (loaded d allSections imgTargets) evs p →
  has_class "lazy-img" e (loaded d allSections imgTargets) →
  ¬ has_class "lazy-img" e p →
  ∃ evs1 evs2 p1,
    evs = evs1 ++ LoadEvent e :: evs2
    ∧ reach (loaded d allSections imgTargets) evs1 p1
    ∧ mutations imgObserver e (log p1) = 1.
Proof.
  intros Hd Hreach Hc Hnc.
  destruct (loaded_invariant d allSections imgTargets Hd) as [Ht0 Ho0].
  destruct (blur_removed_by_load _ _ _ e Hreach Ht0 Ho0 Hc Hnc)
    as (evs1 & evs2 & p1 & -> & Hr1 & Hm).
  exists evs1, evs2, p1. split_and!; [done|done|].
  destruct (reach_invariant _ _ _ Hr1 Ht0 Ho0) as (_ & Ho1 & _).
  destruct (Ho1 imgObserver e). lia.
Qed.

Lemma blur_leaves_on_load_witness :
  no_listeners two_by_two
  ∧ reach (loaded two_by_two [0; 1] [2; 3])
          [Notification imgObserver [Entry 2 true]; LoadEvent 2] image_2_shown
  ∧ has_class "lazy-img" 2 (loaded two_by_two [0; 1] [2; 3])
  ∧ ¬ has_class "lazy-img" 2 image_2_shown
  ∧ ∃ evs1 evs2 p1,
      [Notification imgObserver [Entry 2 true]; LoadEvent 2]
      = evs1 ++ LoadEvent 2 :: evs2
      ∧ reach (loaded two_by_two [0; 1] [2; 3]) evs1 p1
      ∧ mutations imgObserver 2 (log p1) = 1.
Proof.
  assert (no_listeners two_by_two) as H1.
  { apply (bool_decide_unpack _). vm_compute. exact I. }
  assert (reach (loaded two_by_two [0; 1] [2; 3])
            [Notification imgObserver [Entry 2 true]; LoadEvent 2] image_2_shown)
    as H2.
  { apply (reach_cons _ _
             (exec_all [SrcFromDataset 2;
                        AddListener 2 "load" [ClassRemove 2 "lazy-img"];
                        Unobserve imgObserver 2]
                       two_by_two_loaded)).
    - split; [discriminate|]. repeat constructor; vm_compute; reflexivity.
    - reflexivity.
    - apply (reach_cons _ _ image_2_shown); [exact I|reflexivity|constructor]. }
  assert (has_class "lazy-img" 2 (loaded two_by_two [0; 1] [2; 3])) as H3
    by (eexists; split; vm_compute; reflexivity).
  assert (¬ has_class "lazy-img" 2 image_2_shown) as H4.
  { intros (n & Hn & Hcl). vm_compute in Hn. injection Hn as <-.
    vm_compute in Hcl. discriminate. }
  split_and!; [exact H1|exact H2|exact H3|exact H4|].
  exact (blur_leaves_on_load two_by_two [0; 1] [2; 3]
           [Notification imgObserver [Entry 2 true]; LoadEvent 2]
           image_2_shown 2 H1 H2 H3 H4).
Defined.

End ViewportMore.

(** * Further properties of the modal and the booking form *)

Section BookingMore.
Import Booking.
Local Open Scope list_scope.
Local Open Scope nat_scope.

Implicit Types (p : page) (ev : ui_event) (evs : list ui_event) (g : bool).

(** The submit listener is its two halves run back to back. *)
Lemma submit_splits g (r : fetched) p :
  submit g r p = submit_settled g r (submit_request p).
Proof. by destruct r as [[]|]. Qed.

Lemma dispatch_all_snoc g evs ev p :
  dispatch_all g (evs ++ [ev]) p = dispatch g ev (dispatch_all g evs p).
Proof. unfold dispatch_all. by rewrite foldl_app. Qed.

Lemma count_app {A} (f : A → bool) (l1 l2 : list A) :
  count f (l1 ++ l2) = count f l1 + count f l2.
Proof. unfold count. by rewrite filter_app, length_app. Qed.

Lemma count_one {A} (f : A → bool) (x : A) :
  count f [x] = if f x then 1 else 0.
Proof.
  unfold count. rewrite filter_cons, filter_nil.
  destruct (f x); by case_decide.
Qed.

(** X13. The modal and its overlay are shown and hidden together: if they
    agree before, they agree after any sequence of show-modal clicks, close
    and overlay clicks, key presses, submissions and fetch results. *)
Theorem modal_and_overlay_together g evs p :
  modal_hidden p = overlay_hidden p →
  modal_hidden (dispatch_all g evs p) = overlay_hidden (dispatch_all g evs p).
Proof.
  intros Hp. induction evs as [|ev evs IH] using rev_ind; [done|].
  rewrite dispatch_all_snoc. set (q := dispatch_all g evs p) in *.
  destruct ev as [| | |key| |[[]|]]; simpl; try done.
  - unfold showModalClick. by destruct g.
  - unfold modalKeydown. by destruct (_ && _).
Qed.

Lemma modal_and_overlay_together_witness :
  modal_hidden filled_in = overlay_hidden filled_in
  ∧ modal_hidden
      (dispatch_all true
         [KeyDown "Escape"; ShowModalClick; Submit; OverlayClick;
          Settled (Response false)] filled_in)
    = overlay_hidden
        (dispatch_all true
           [KeyDown "Escape"; ShowModalClick; Submit; OverlayClick;
            Settled (Response false)] filled_in).
Proof.
  split; [reflexivity|].
  apply (modal_and_overlay_together true
           [KeyDown "Escape"; ShowModalClick; Submit; OverlayClick;
            Settled (Response false)] filled_in).
  reflexivity.
Defined.

Lemma dispatch_effects g ev p :
  ∃ l, effects (dispatch g ev p) = effects p ++ l
    ∧ count is_post l = (if is_submit ev then 1 else 0)
    ∧ count is_alert l = (if is_settled ev then 1 else 0)
    ∧ count (is_gtag_event "generate_lead") l
      = (if g && is_success ev then 1 else 0)
    ∧ count (is_gtag_event "book_lesson_click") l
      = (if g && is_show ev then 1 else 0).
Proof.
  destruct ev as [| | |key| |[[]|]]; simpl.
  - unfold showModalClick. destruct g; simpl.
    + exists [PreventDefault; Gtag "event" "book_lesson_click" []].
      by rewrite <- app_assoc.
    + by exists [PreventDefault].
  - exists []. by rewrite app_nil_r, andb_false_r.
  - exists []. by rewrite app_nil_r, andb_false_r.
  - exists []. unfold modalKeydown. rewrite app_nil_r, andb_false_r.
    by destruct (_ && _).
  - exists [PreventDefault; Post FORMSPREE_URL (formData p)].
    rewrite <- app_assoc, andb_false_r. done.
  - destruct g; simpl.
    + exists [Gtag "event" "generate_lead"
                [("event_category", "engagement"); ("event_label", "booking_form")];
              Alert success_message].
      by rewrite <- app_assoc.
    + by exists [Alert success_message].
  - exists [Alert failure_message]. by rewrite andb_false_r.
  - exists [Alert network_message]. by rewrite andb_false_r.
Qed.

(** X14. The effects of any sequence of events add up one for one: one POST
    per submission, one alert per fetch that ended, one generate_lead event
    per fetch that ended in a success response and one book_lesson_click
    event per show-modal click when gtag is a function, and no analytics
    event at all when it is not. *)
Theorem effects_add_up g evs p :
  count is_post (effects (dispatch_all g evs p))
  = count is_post (effects p) + count is_submit evs
  ∧ count is_alert (effects (dispatch_all g evs p))
    = count is_alert (effects p) + count is_settled evs
  ∧ count (is_gtag_event "generate_lead") (effects (dispatch_all g evs p))
    = count (is_gtag_event "generate_lead") (effects p)
      + (if g then count is_success evs else 0)
  ∧ count (is_gtag_event "book_lesson_click") (effects (dispatch_all g evs p))
    = count (is_gtag_event "book_lesson_click") (effects p)
      + (if g then count is_show evs else 0).
Proof.
  induction evs as [|ev evs IH] using rev_ind.
  - assert (∀ f : ui_event → bool, count f [] = 0) as H0 by done.
    rewrite !H0. destruct g; simpl; lia.
  - rewrite dispatch_all_snoc.
    destruct (dispatch_effects g ev (dispatch_all g evs p))
      as (l & -> & H1 & H2 & H3 & H4).
    destruct IH as (I1 & I2 & I3 & I4).
    rewrite !count_app, !count_one, I1, I2, I3, I4, H1, H2, H3, H4.
    destruct g; simpl; repeat case_match; lia.
Qed.



End BookingMore.

(** * Properties of the tabbed component *)

Section TabsFacts.
Import Tabs.
Local Open Scope list_scope.
Local Open Scope nat_scope.

Implicit Types (d : list element) (el tab : element) (k j : nat) (m : option nat)
  (c : string).

Lemma activate_tab_lookup k d j :
  activate_tab k d !! j = after_click k None j <$> d !! j.
Proof.
  unfold activate_tab, after_click. rewrite bool_decide_eq_false_2 by done.
  destruct (decide (j = k)) as [->|Hne].
  - rewrite list_lookup_alter_eq, !list_lookup_fmap, bool_decide_eq_true_2 by done.
    by destruct (d !! k).
  - rewrite list_lookup_alter_ne by done.
    rewrite !list_lookup_fmap, bool_decide_eq_false_2 by done.
    by destruct (d !! j).
Qed.

Lemma content_found_lookup k d (j0 : nat) j :
  alter (add_class "operations__content--active") j0 (activate_tab k d) !! j
  = after_click k (Some j0) j <$> d !! j.
Proof.
  destruct (decide (j0 = j)) as [->|Hne].
  - rewrite list_lookup_alter_eq, activate_tab_lookup. unfold after_click.
    rewrite (bool_decide_eq_true_2 (Some j = Some j)) by done.
    rewrite (bool_decide_eq_false_2 (None = Some j)) by done.
    by destruct (d !! j).
  - rewrite list_lookup_alter_ne, activate_tab_lookup by done. unfold after_click.
    rewrite (bool_decide_eq_false_2 (Some j0 = Some j)) by congruence.
    by rewrite (bool_decide_eq_false_2 (None = Some j)) by done.
Qed.

(** The classes of an element after a click, in terms of those before. *)
Lemma after_click_classes k m j el c :
  c ∈ classes (after_click k m j el)
  ↔ (c ∈ classes el
     ∧ ¬ (c = "operations__tab--active" ∧ "operations__tab" ∈ classes el)
     ∧ ¬ (c = "operations__content--active" ∧ "operations__content" ∈ classes el))
    ∨ (c = "operations__tab--active" ∧ j = k)
    ∨ (c = "operations__content--active" ∧ m = Some j).
Proof.
  assert ("operations__content" ≠ "operations__tab--active") as H1 by done.
  unfold after_click, drop_content_active, drop_tab_active, add_class,
    remove_class.
  repeat case_bool_decide; simpl in *; set_solver.
Qed.

Lemma after_click_data_tab k m j el :
  data_tab (after_click k m j el) = data_tab el.
Proof.
  unfold after_click, drop_content_active, drop_tab_active.
  by repeat case_bool_decide.
Qed.

Lemma content_class_plain tab :
  content_class tab ≠ "operations__tab--active"
  ∧ content_class tab ≠ "operations__tab"
  ∧ content_class tab ≠ "operations__content"
  ∧ (data_tab tab ≠ Some "active"
     → content_class tab ≠ "operations__content--active").
Proof.
  unfold content_class. split_and!; simpl; try discriminate.
  intros Hne H.
  change "operations__content--active"
    with ("operations__content--" +:+ "active") in H.
  apply (inj (String.app _)) in H. destruct (data_tab tab) as [s|]; simpl in H.
  - subst. by destruct Hne.
  - discriminate.
Qed.

(** The outcome of a click on a tab, element by element. *)
Lemma tabClick_outcome k d tab r :
  d !! k = Some tab → "operations__tab" ∈ classes tab →
  tabClick (Some k) d = Some r →
  ∃ m, (∀ j, final r !! j = after_click k m j <$> d !! j)
    ∧ length (final r) = length d
    ∧ (returns r = true ↔ is_Some m)
    ∧ (∀ j0, m = Some j0 →
         ∃ el, d !! j0 = Some el
           ∧ content_class tab ∈ classes (after_click k None j0 el)
           ∧ ∀ j el', j < j0 → d !! j = Some el' →
                      content_class tab ∉ classes (after_click k None j el'))
    ∧ (m = None →
       ∀ j el, d !! j = Some el →
               content_class tab ∉ classes (after_click k None j el)).
Proof.
  intros Hk Htab. unfold tabClick. rewrite Hk, bool_decide_eq_true_2 by done.
  destruct (ident_tail _); [|done].
  destruct (list_find _ _) as [[j0 el0]|] eqn:Hfind; intros [= <-]; simpl.
  - exists (Some j0). apply list_find_Some in Hfind as (Hj0 & HP & Hfirst).
    split_and!.
    + apply content_found_lookup.
    + unfold activate_tab. by rewrite !length_alter, !length_fmap.
    + done.
    + intros j1 [= <-]. rewrite activate_tab_lookup in Hj0.
      apply fmap_Some in Hj0 as (el & Hel & ->). exists el.
      split_and!; [done|done|].
      intros j el' Hlt Hj. apply (Hfirst j); [|done].
      by rewrite activate_tab_lookup, Hj.
    + done.
  - exists None. apply list_find_None in Hfind. rewrite Forall_forall in Hfind.
    split_and!.
    + apply activate_tab_lookup.
    + unfold activate_tab. by rewrite !length_alter, !length_fmap.
    + split; [done|]. by intros [? ?].
    + done.
    + intros _ j el Hj. apply Hfind. apply list_elem_of_lookup. exists j.
      by rewrite activate_tab_lookup, Hj.
Qed.

(** X16. After a click on a tab that returns, the clicked tab is the only
    active tab; the first element of the document carrying the class
    operations__content--<data-tab> carries operations__content--active;
    and no other content panel is active. *)
Theorem tab_click_activates_one k d tab d' :
  d !! k = Some tab → "operations__tab" ∈ classes tab →
  tabClick (Some k) d = Some (Normal d') →
  length d' = length d
  ∧ (∀ j el, d' !! j = Some el → "operations__tab" ∈ classes el →
             ("operations__tab--active" ∈ classes el ↔ j = k))
  ∧ ∃ j0 el0, d' !! j0 = Some el0
      ∧ content_class tab ∈ classes el0
      ∧ "operations__content--active" ∈ classes el0
      ∧ (∀ j el, j < j0 → d' !! j = Some el → content_class tab ∉ classes el)
      ∧ (∀ j el, d' !! j = Some el → "operations__content" ∈ classes el →
                 "operations__content--active" ∈ classes el → j = j0).
Proof.
  intros Hk Htab Hclick.
  destruct (tabClick_outcome k d tab _ Hk Htab Hclick)
    as (m & Hlook & Hlen & Hret & Hsome & _).
  simpl in *. destruct Hret as [Hret _].
  destruct (Hret eq_refl) as [j0 ->].
  destruct (Hsome j0 eq_refl) as (el0 & Hel0 & Hcc & Hfirst).
  destruct (content_class_plain tab) as (Hc1 & Hc2 & Hc3 & _).
  split_and!; [done| |].
  - intros j el Hj. rewrite Hlook in Hj. apply fmap_Some in Hj as (el1 & _ & ->).
    rewrite !after_click_classes. naive_solver.
  - exists j0, (after_click k (Some j0) j0 el0).
    split_and!.
    + by rewrite Hlook, Hel0.
    + revert Hcc. rewrite !after_click_classes. naive_solver.
    + rewrite after_click_classes. naive_solver.
    + intros j el Hlt Hj. rewrite Hlook in Hj.
      apply fmap_Some in Hj as (el1 & Hel1 & ->).
      pose proof (Hfirst j el1 Hlt Hel1) as Hn. revert Hn.
      rewrite !after_click_classes. naive_solver lia.
    + intros j el Hj. rewrite Hlook in Hj.
      apply fmap_Some in Hj as (el1 & _ & ->).
      rewrite !after_click_classes. naive_solver.
Qed.

Lemma tab_click_activates_one_witness :
  three_tabs !! 1
  = Some (Element {["operations__tab"; "operations__tab--2"]} (Some "2"))
  ∧ "operations__tab"
    ∈ classes (Element {["operations__tab"; "operations__tab--2"]} (Some "2"))
  ∧ tabClick (Some 1) three_tabs = Some (Normal three_tabs_second)
  ∧ length three_tabs_second = length three_tabs
  ∧ (∀ j el, three_tabs_second !! j = Some el → "operations__tab" ∈ classes el →
             ("operations__tab--active" ∈ classes el ↔ j = 1))
  ∧ ∃ j0 el0, three_tabs_second !! j0 = Some el0
      ∧ content_class (Element {["operations__tab"; "operations__tab--2"]}
                               (Some "2")) ∈ classes el0
      ∧ "operations__content--active" ∈ classes el0
      ∧ (∀ j el, j < j0 → three_tabs_second !! j = Some el →
                 content_class (Element {["operations__tab"; "operations__tab--2"]}
                                        (Some "2")) ∉ classes el)
      ∧ (∀ j el, three_tabs_second !! j = Some el →
                 "operations__content" ∈ classes el →
                 "operations__content--active" ∈ classes el → j = j0).
Proof.
  assert (three_tabs !! 1
          = Some (Element {["operations__tab"; "operations__tab--2"]} (Some "2")))
    as H1 by reflexivity.
  assert ("operations__tab"
          ∈ classes (Element {["operations__tab"; "operations__tab--2"]} (Some "2")))
    as H2 by (vm_compute; reflexivity).
  assert (tabClick (Some 1) three_tabs = Some (Normal three_tabs_second)) as H3
    by (vm_compute; reflexivity).
  split_and!; [exact H1|exact H2|exact H3|..];
    apply (tab_click_activates_one 1 three_tabs _ three_tabs_second H1 H2 H3).
Defined.

Lemma element_ext (a b : element) :
  data_tab a = data_tab b → (∀ c, c ∈ classes a ↔ c ∈ classes b) → a = b.
Proof.
  destruct a as [ca da], b as [cb db]. simpl. intros -> H. f_equal.
  by apply set_eq.
Qed.

Lemma after_click_twice k (j0 j : nat) el :
  after_click k (Some j0) j (after_click k (Some j0) j el)
  = after_click k (Some j0) j el.
Proof.
  apply element_ext; [by rewrite !after_click_data_tab|].
  intros c. rewrite !after_click_classes. naive_solver.
Qed.

(** X17. Clicking the active tab again changes nothing: when a click on a
    tab (whose data-tab is not the word active) returned, a second click on
    the same tab returns the very same document. *)
Theorem tab_click_idempotent k d tab d' :
  d !! k = Some tab → "operations__tab" ∈ classes tab →
  data_tab tab ≠ Some "active" →
  tabClick (Some k) d = Some (Normal d') →
  tabClick (Some k) d' = Some (Normal d').
Proof.
  intros Hk Htab Hact Hclick.
  destruct (tabClick_outcome k d tab _ Hk Htab Hclick)
    as (m & Hlook & Hlen & Hret & Hsome & _).
  simpl in *. destruct Hret as [Hret _]. destruct (Hret eq_refl) as [j0 ->].
  destruct (Hsome j0 eq_refl) as (el0 & Hel0 & Hcc & Hfirst).
  destruct (content_class_plain tab) as (Hc1 & Hc2 & Hc3 & Hc4).
  specialize (Hc4 Hact).
  assert (ident_tail (default "undefined" (data_tab tab)) = true) as Hid.
  { unfold tabClick in Hclick. rewrite Hk, bool_decide_eq_true_2 in Hclick by done.
    by destruct (ident_tail _). }
  set (tab' := after_click k (Some j0) k tab).
  assert (d' !! k = Some tab') as Hk' by (by rewrite Hlook, Hk).
  assert (content_class tab' = content_class tab) as Hcls.
  { unfold content_class, tab'. by rewrite after_click_data_tab. }
  unfold tabClick. rewrite Hk'.
  rewrite bool_decide_eq_true_2
    by (unfold tab'; rewrite after_click_classes; naive_solver).
  unfold tab' at 1. rewrite after_click_data_tab, Hid, Hcls.
  assert (list_find (λ el, content_class tab ∈ classes el) (activate_tab k d')
          = Some (j0, after_click k None j0 (after_click k (Some j0) j0 el0)))
    as ->.
  { apply list_find_Some. split_and!.
    - by rewrite activate_tab_lookup, Hlook, Hel0.
    - revert Hcc. rewrite !after_click_classes. naive_solver.
    - intros j y Hj Hlt. rewrite activate_tab_lookup, Hlook in Hj.
      destruct (d !! j) as [el|] eqn:Hel; [|done]. simpl in Hj.
      injection Hj as <-. pose proof (Hfirst j el Hlt Hel) as Hn. revert Hn.
      rewrite !after_click_classes. naive_solver lia. }
  do 2 f_equal. apply list_eq. intros j.
  rewrite content_found_lookup, Hlook. destruct (d !! j) as [el|]; [|done].
  simpl. f_equal. apply after_click_twice.
Qed.

Lemma tab_click_idempotent_witness :
  three_tabs !! 1
  = Some (Element {["operations__tab"; "operations__tab--2"]} (Some "2"))
  ∧ "operations__tab"
    ∈ classes (Element {["operations__tab"; "operations__tab--2"]} (Some "2"))
  ∧ data_tab (Element {["operations__tab"; "operations__tab--2"]} (Some "2"))
    ≠ Some "active"
  ∧ tabClick (Some 1) three_tabs = Some (Normal three_tabs_second)
  ∧ tabClick (Some 1) three_tabs_second = Some (Normal three_tabs_second).
Proof.
  assert (three_tabs !! 1
          = Some (Element {["operations__tab"; "operations__tab--2"]} (Some "2")))
    as H1 by reflexivity.
  assert ("operations__tab"
          ∈ classes (Element {["operations__tab"; "operations__tab--2"]} (Some "2")))
    as H2 by (vm_compute; reflexivity).
  assert (data_tab (Element {["operations__tab"; "operations__tab--2"]} (Some "2"))
          ≠ Some "active") as H3 by discriminate.
  assert (tabClick (Some 1) three_tabs = Some (Normal three_tabs_second)) as H4
    by (vm_compute; reflexivity).
  split_and!; [exact H1|exact H2|exact H3|exact H4|].
  exact (tab_click_idempotent 1 three_tabs _ three_tabs_second H1 H2 H3 H4).
Defined.

(** X18. A click on a tab whose panel is missing throws half-way: the
    clicked tab is left as the only active tab, every content panel has
    lost its active marker, and no element carries the class the selector
    asked for. *)
Theorem tab_click_without_panel k d tab d' :
  d !! k = Some tab → "operations__tab" ∈ classes tab →
  tabClick (Some k) d = Some (TypeError d') →
  length d' = length d
  ∧ (∀ j el, d' !! j = Some el → "operations__tab" ∈ classes el →
             ("operations__tab--active" ∈ classes el ↔ j = k))
  ∧ (∀ j el, d' !! j = Some el → "operations__content" ∈ classes el →
             "operations__content--active" ∉ classes el)
  ∧ (∀ el, el ∈ d' → content_class tab ∉ classes el).
Proof.
  intros Hk Htab Hclick.
  destruct (tabClick_outcome k d tab _ Hk Htab Hclick)
    as (m & Hlook & Hlen & Hret & _ & Hnone).
  simpl in *. destruct m as [j0|].
  { by pose proof (proj2 Hret (ex_intro _ j0 eq_refl)). }
  split_and!; [done|..].
  - intros j el Hj. rewrite Hlook in Hj. apply fmap_Some in Hj as (el1 & _ & ->).
    rewrite !after_click_classes. naive_solver.
  - intros j el Hj. rewrite Hlook in Hj. apply fmap_Some in Hj as (el1 & _ & ->).
    rewrite !after_click_classes. naive_solver.
  - intros el (j & Hj)%list_elem_of_lookup. rewrite Hlook in Hj.
    apply fmap_Some in Hj as (el1 & Hel1 & ->). by apply (Hnone eq_refl j).
Qed.

Lemma tab_click_without_panel_witness :
  tabs_missing_panel !! 2
  = Some (Element {["operations__tab"; "operations__tab--3"]} (Some "3"))
  ∧ "operations__tab"
    ∈ classes (Element {["operations__tab"; "operations__tab--3"]} (Some "3"))
  ∧ tabClick (Some 2) tabs_missing_panel
    = Some (TypeError (activate_tab 2 tabs_missing_panel))
  ∧ length (activate_tab 2 tabs_missing_panel) = length tabs_missing_panel
  ∧ (∀ j el, activate_tab 2 tabs_missing_panel !! j = Some el →
             "operations__tab" ∈ classes el →
             ("operations__tab--active" ∈ classes el ↔ j = 2))
  ∧ (∀ j el, activate_tab 2 tabs_missing_panel !! j = Some el →
             "operations__content" ∈ classes el →
             "operations__content--active" ∉ classes el)
  ∧ (∀ el, el ∈ activate_tab 2 tabs_missing_panel →
           content_class (Element {["operations__tab"; "operations__tab--3"]}
                                  (Some "3")) ∉ classes el).
Proof.
  assert (tabs_missing_panel !! 2
          = Some (Element {["operations__tab"; "operations__tab--3"]} (Some "3")))
    as H1 by reflexivity.
  assert ("operations__tab"
          ∈ classes (Element {["operations__tab"; "operations__tab--3"]} (Some "3")))
    as H2 by (vm_compute; reflexivity).
  assert (tabClick (Some 2) tabs_missing_panel
          = Some (TypeError (activate_tab 2 tabs_missing_panel))) as H3
    by (vm_compute; reflexivity).
  split_and!; [exact H1|exact H2|exact H3|..];
    apply (tab_click_without_panel 2 tabs_missing_panel _ _ H1 H2 H3).
Defined.

End TabsFacts.
